(** * browser.py: cookie rules, fingerprint pipeline, capture diff and
      the session orchestrator

    A shallow embedding of [src/main.py] (the Selenium login flow) and
    [src/uncompletedbest.py] (the Playwright multi-account runner).

    Conventions.
    - A Python [str] is a [string]; every character stands for the code
      point of the same number, so the model covers the strings whose code
      points are below 256.
    - A value that came out of [json.load] (or that goes into
      [json.dumps]) is a [jval]; a Python [dict] with string keys is a
      [gmap string _], whose equality is the one of Python dicts (the
      order of insertion plays no role).  JSON numbers are the integers.
    - A call that may raise returns an [option] ([None]: an exception
      leaves the function), or runs in the trace monad [M] of the session
      runner where the exception is kept.
    - The browser, the driver and the event loop are outside the source:
      they appear as parameters (the driver operations), as oracles (what
      each external call does) or as a transition system (the event loop
      with its semaphore). *)

From Stdlib Require Import Ascii String DecimalString ZArith.
From stdpp Require Import gmap strings list fin_maps sorting.

Set Warnings "-register-all".
Set Default Proof Using "Type".


(* ===================================================================== *)
(** * Part I: definitions                                                 *)
(* ===================================================================== *)

(** ** Python string operations *)

Definition ord (c : ascii) : N := Ascii.N_of_ascii c.
Definition chr (n : N) : ascii := Ascii.ascii_of_N n.

(** [str.lower] on one code point below 256: the ASCII capitals and the
    Latin-1 capitals U+00C0..U+00DE (the sign U+00D7 apart) move up by 32. *)
Definition lower_char (c : ascii) : ascii :=
  let n := ord c in
  if ((65 <=? n) && (n <=? 90) || (192 <=? n) && (n <=? 222) && negb (n =? 215))%N
  then chr (n + 32) else c.

Fixpoint lower (s : string) : string :=
  match s with
  | "" => ""
  | String c s' => String (lower_char c) (lower s')
  end.

Fixpoint char_in (c : ascii) (chars : string) : bool :=
  match chars with
  | "" => false
  | String d chars' => Ascii.eqb c d || char_in c chars'
  end.

(** [s.lstrip(chars)]: drops every leading character that occurs in
    [chars]. *)
Fixpoint lstrip (chars s : string) : string :=
  match s with
  | "" => ""
  | String c s' => if char_in c chars then lstrip chars s' else s
  end.

(** [s.startswith(p)] *)
Fixpoint startswith (s p : string) {struct p} : bool :=
  match p, s with
  | "", _ => true
  | String _ _, "" => false
  | String a p', String b s' => Ascii.eqb a b && startswith s' p'
  end.

(** [s.endswith(suf)]: [s] is [suf] or the tail of [s] ends with [suf]. *)
Fixpoint endswith (s suf : string) : bool :=
  if String.eqb s suf then true
  else match s with
       | "" => false
       | String _ s' => endswith s' suf
       end.

(** ** JSON values *)

Inductive jval :=
  | JNull
  | JBool (b : bool)
  | JNum (n : Z)
  | JStr (s : string)
  | JArr (l : list jval)
  | JObj (m : gmap string jval).

Global Instance jval_inhabited : Inhabited jval := populate JNull.

(** Python truth value ([if not x], [x and y]). *)
Definition truthy (v : jval) : bool :=
  match v with
  | JNull => false
  | JBool b => b
  | JNum n => negb (n =? 0)%Z
  | JStr s => negb (String.eqb s "")
  | JArr l => negb (bool_decide (l = []))
  | JObj m => negb (bool_decide (m = ∅))
  end.

(** The receiver of a [str] method: any other value has no such attribute
    and the call raises [AttributeError]. *)
Definition as_str (v : jval) : option string :=
  match v with
  | JStr s => Some s
  | _ => None
  end.

(** [d.get(k)] and [d.get(k, dflt)] *)
Definition dict_get (d : gmap string jval) (k : string) : jval :=
  default JNull (d !! k).
Definition dict_get_or (d : gmap string jval) (k : string) (dflt : jval) : jval :=
  default dflt (d !! k).

(** ** Cookie rules (main.py, lines 26-34) *)

(** [_domain_match(cd, host)] *)
Definition _domain_match (cd host : jval) : option bool :=
  if negb (truthy cd) then Some false
  else
    cd ← as_str cd;
    let cd := lower (lstrip "." cd) in
    host ← as_str host;
    let host := lower host in
    Some (String.eqb host cd || endswith host ("." +:+ cd)).

(** [_path_match(cp, req)] *)
Definition _path_match (cp req : jval) : option bool :=
  if negb (truthy cp) then Some true
  else
    cp ← as_str cp;
    req ← as_str req;
    Some (startswith req (if startswith cp "/" then cp else "/" +:+ cp)).

(** The rule of the specification for the domain: one leading dot is
    removed.  Only used to compare [_domain_match] with it. *)
Definition strip_one_dot (s : string) : string :=
  match s with
  | "" => ""
  | String c s' => if Ascii.eqb c "." then s' else s
  end.

Definition domain_match_spec (cd : option string) (host : string) : bool :=
  match cd with
  | None | Some "" => false
  | Some cd =>
      let cd := lower (strip_one_dot cd) in
      let host := lower host in
      String.eqb host cd || endswith host ("." +:+ cd)
  end.

(** The path rule of RFC 6265 (5.1.4), which the example of the
    specification follows: the cookie path is a prefix of the request path
    and the prefix ends at a path separator. *)
Definition path_match_rfc (cp req : string) : bool :=
  String.eqb cp req
  || startswith req cp && endswith cp "/"
  || startswith req (cp +:+ "/").

(** ** Cookie loading (main.py, lines 36-71) *)

(** [urlparse(target_url)], as far as the function reads it. *)
Record target := Target {
  target_url : string;
  scheme : string;
  hostname : option string;
  path : string
}.

Definition py_str_opt (o : option string) : string := default "None" o.
Definition jval_of_opt (o : option string) : jval := from_option JStr JNull o.

Inductive load_report :=
  | NoCookieFile
  | CookiesApplied (added skipped : nat).

Section cookie_loading.
(** The driver: a state and three operations.  [get] and [refresh]
    may raise; [add_cookie] returns the new state and whether it
    returned normally (an exception of it is caught by the loop). *)
Context {Driver : Type}.
Variable drv_get : string → Driver → option Driver.
Variable drv_refresh : Driver → option Driver.
Variable drv_add_cookie : gmap string jval → Driver → Driver * bool.

(** The body of [for c in cookies], with the two counters. *)
Fixpoint cookie_loop (p : target) (req_path : string)
    (cookies : list (gmap string jval)) (drv : Driver) (added skipped : nat)
    : option (Driver * nat * nat) :=
  match cookies with
  | [] => Some (drv, added, skipped)
  | c :: rest =>
      let c := delete "sameSite" c in
      dm ← _domain_match (dict_get c "domain") (jval_of_opt (hostname p));
      if negb dm then cookie_loop p req_path rest drv added (S skipped)
      else
        pm ← _path_match (dict_get_or c "path" (JStr "/")) (JStr req_path);
        if negb pm then cookie_loop p req_path rest drv added (S skipped)
        else if truthy (dict_get c "secure") && negb (String.eqb (scheme p) "https")
        then cookie_loop p req_path rest drv added (S skipped)
        else
          let '(drv', ok) := drv_add_cookie c drv in
          if ok then cookie_loop p req_path rest drv' (S added) skipped
          else cookie_loop p req_path rest drv' added (S skipped)
  end.

(** [load_cookies_domain_safe(driver, cookie_file, target_url)]; the
    file is given by its parsed content, [None] when it does not exist.
    The result is the state of the driver and what the function logs. *)
Definition load_cookies_domain_safe (drv : Driver)
    (cookie_file : option (list (gmap string jval))) (p : target)
    : option (Driver * load_report) :=
  match cookie_file with
  | None => Some (drv, NoCookieFile)
  | Some cookies =>
      let base := scheme p +:+ "://" +:+ py_str_opt (hostname p) +:+ "/" in
      let req_path := if String.eqb (path p) "" then "/" else path p in
      drv ← drv_get base drv;
      '(drv, added, skipped) ← cookie_loop p req_path cookies drv 0 0;
      drv ← drv_get (target_url p) drv;
      drv ← drv_refresh drv;
      Some (drv, CookiesApplied added skipped)
  end.
End cookie_loading.

(** ** Configuration ([env] and [on], both files) *)

(** [env(k)]: the value of the process environment, [None] when unset. *)
Definition env (e : gmap string string) (k : string) : option string := e !! k.

(** [env(k, d)] *)
Definition env_or (e : gmap string string) (k d : string) : string :=
  default d (e !! k).

(** [on(k)]: [env(k, "0") == "1"] *)
Definition on (e : gmap string string) (k : string) : bool :=
  String.eqb (env_or e k "0") "1".

(** [if env(k)]: set and not the empty string. *)
Definition env_truthy (e : gmap string string) (k : string) : bool :=
  match env e k with
  | Some s => negb (String.eqb s "")
  | None => false
  end.

(** ** The page: three fingerprint surfaces and the usage flags *)

Inductive surface := Webgl | Canvas | Audio.

Global Instance surface_eq_dec : EqDecision surface.
Proof. solve_decision. Defined.

(** The function object stored in a prototype slot.  Each script that
    replaces a slot keeps the function it found there in a constant and
    calls it from the replacement: the value is a stack of wrappers over
    the function of the browser. *)
Inductive jsfun :=
  | Native
  | Probe (s : surface) (orig : jsfun)
  | WebglPatch (vendor renderer : string) (g : jsfun)
  | CanvasPatch (t : jsfun)
  | AudioPatch (o : jsfun).

Global Instance jsfun_eq_dec : EqDecision jsfun.
Proof. solve_decision. Defined.

(** [window.__fp_used] *)
Record usage := Usage { u_webgl : bool; u_canvas : bool; u_audio : bool }.

Record window := Window {
  fp_used : option usage;          (* [None]: the property is undefined *)
  getParameter : jsfun;            (* WebGLRenderingContext.prototype *)
  toDataURL : jsfun;               (* HTMLCanvasElement.prototype *)
  getChannelData : jsfun;          (* AudioContext.prototype *)
  navigator_props : gmap string jval
}.

(** A document on which no script of the program ran yet. *)
Definition fresh_window : window :=
  Window None Native Native Native ∅.

Definition slot (s : surface) (w : window) : jsfun :=
  match s with
  | Webgl => getParameter w
  | Canvas => toDataURL w
  | Audio => getChannelData w
  end.

Definition set_slot (s : surface) (f : jsfun) (w : window) : window :=
  match s with
  | Webgl => Window (fp_used w) f (toDataURL w) (getChannelData w) (navigator_props w)
  | Canvas => Window (fp_used w) (getParameter w) f (getChannelData w) (navigator_props w)
  | Audio => Window (fp_used w) (getParameter w) (toDataURL w) f (navigator_props w)
  end.

Definition set_fp_used (u : option usage) (w : window) : window :=
  Window u (getParameter w) (toDataURL w) (getChannelData w) (navigator_props w).

Definition mark (s : surface) (u : usage) : usage :=
  match s with
  | Webgl => Usage true (u_canvas u) (u_audio u)
  | Canvas => Usage (u_webgl u) true (u_audio u)
  | Audio => Usage (u_webgl u) (u_canvas u) true
  end.

Definition flag (s : surface) (u : usage) : bool :=
  match s with
  | Webgl => u_webgl u
  | Canvas => u_canvas u
  | Audio => u_audio u
  end.

(** What one call of a slot does, as the page can see it. *)
Inductive retval :=
  | FromNative (arg : Z)       (* what the browser returns for this argument *)
  | Configured (s : string).   (* a string of the configuration *)

Record effect := Effect {
  touched : list surface;      (* flags set by probes on the way *)
  alpha_writes : nat;          (* [c.globalAlpha = 0.999999] executed *)
  sample_passes : nat;         (* passes of [d[i] += 1e-7] over the buffer *)
  ret : retval
}.

Fixpoint invoke (f : jsfun) (arg : Z) : effect :=
  match f with
  | Native => Effect [] 0 0 (FromNative arg)
  | Probe s orig =>
      let e := invoke orig arg in
      Effect (s :: touched e) (alpha_writes e) (sample_passes e) (ret e)
  | WebglPatch vendor renderer g =>
      if (arg =? 37445)%Z then Effect [] 0 0 (Configured vendor)
      else if (arg =? 37446)%Z then Effect [] 0 0 (Configured renderer)
      else invoke g arg
  | CanvasPatch t =>
      let e := invoke t arg in
      Effect (touched e) (S (alpha_writes e)) (sample_passes e) (ret e)
  | AudioPatch o =>
      let e := invoke o arg in
      Effect (touched e) (alpha_writes e) (S (sample_passes e)) (ret e)
  end.

(** The page calls the function of surface [s]: the probes on the way set
    their flags in [window.__fp_used]. *)
Definition page_call (w : window) (call : surface * Z) : window :=
  let e := invoke (slot call.1 w) call.2 in
  set_fp_used (foldr (λ s u, mark s <$> u) (fp_used w) (touched e)) w.

Definition page_activity (calls : list (surface * Z)) (w : window) : window :=
  foldl page_call w calls.

(** Number of patch wrappers of surface [s] in a function. *)
Fixpoint patch_layers (s : surface) (f : jsfun) : nat :=
  match f with
  | Native => 0
  | Probe _ orig => patch_layers s orig
  | WebglPatch _ _ g => (if decide (s = Webgl) then 1 else 0) + patch_layers s g
  | CanvasPatch t => (if decide (s = Canvas) then 1 else 0) + patch_layers s t
  | AudioPatch o => (if decide (s = Audio) then 1 else 0) + patch_layers s o
  end.

Definition patched (s : surface) (w : window) : bool :=
  negb (Nat.eqb (patch_layers s (slot s w)) 0).

(** ** Fingerprint observation and overrides (main.py, lines 105-167) *)

(** The script of [inject_fp_detection]: it returns at once when
    [window.__fp_used] exists, else it creates the flags and wraps the
    three slots. *)
Definition detect_script (w : window) : window :=
  match fp_used w with
  | Some _ => w
  | None =>
      Window (Some (Usage false false false))
        (Probe Webgl (getParameter w))
        (Probe Canvas (toDataURL w))
        (Probe Audio (getChannelData w))
        (navigator_props w)
  end.

Definition inject_fp_detection (e : gmap string string) (w : window) : window :=
  if on e "FP_DETECT" then detect_script w else w.

(** [driver.execute_script("return window.__fp_used || {}")] *)
Definition read_fp_used (w : window) : gmap string jval :=
  match fp_used w with
  | Some u =>
      <["webgl" := JBool (u_webgl u)]>
        (<["canvas" := JBool (u_canvas u)]>
           (<["audio" := JBool (u_audio u)]> ∅))
  | None => ∅
  end.

Definition webgl_override (vendor renderer : string) (w : window) : window :=
  set_slot Webgl (WebglPatch vendor renderer (getParameter w)) w.
Definition canvas_override (w : window) : window :=
  set_slot Canvas (CanvasPatch (toDataURL w)) w.
Definition audio_override (w : window) : window :=
  set_slot Audio (AudioPatch (getChannelData w)) w.

(** [apply_fp_overrides(driver, used)] *)
Definition apply_fp_overrides (e : gmap string string) (used : gmap string jval)
    (w : window) : window :=
  let w :=
    if truthy (dict_get used "webgl") && on e "FP_WEBGL"
    then webgl_override (py_str_opt (env e "WEBGL_VENDOR"))
           (py_str_opt (env e "WEBGL_RENDERER")) w
    else w in
  let w :=
    if truthy (dict_get used "canvas") && on e "FP_CANVAS"
    then canvas_override w else w in
  if truthy (dict_get used "audio") && on e "FP_AUDIO"
  then audio_override w else w.

(** The fingerprint steps of [browser_login] (lines 190-196): install the
    probes, let the page run for the observation window, read the report,
    install the overrides.  [calls] is what the page calls meanwhile. *)
Definition browser_login_fingerprint (e : gmap string string)
    (calls : list (surface * Z)) (w : window) : gmap string jval * window :=
  let w := inject_fp_detection e w in
  let w := page_activity calls w in
  let used := read_fp_used w in
  (used, apply_fp_overrides e used w).

(** The key of a surface in the report and the switch of its override. *)
Definition report_key (s : surface) : string :=
  match s with Webgl => "webgl" | Canvas => "canvas" | Audio => "audio" end.
Definition toggle (s : surface) : string :=
  match s with Webgl => "FP_WEBGL" | Canvas => "FP_CANVAS" | Audio => "FP_AUDIO" end.

(** ** Fingerprint init script (uncompletedbest.py, lines 39-86) *)

(** The pieces that [fingerprint_init_script] appends to [s]. *)
Inductive fragment :=
  | FragWebdriver
  | FragHardwareConcurrency (n : Z)
  | FragDeviceMemory (n : Z)
  | FragWebgl (vendor renderer : string)
  | FragCanvas
  | FragAudio
  | FragDetect.

Section init_script.
(** The builtin [int] on a string: [None] when it raises [ValueError]. *)
Variable py_int : string → option Z.

Definition fingerprint_init_script (e : gmap string string) : option (list fragment) :=
  let s := [] in
  let s := if on e "REMOVE_NAVIGATOR_WEBDRIVER" then s ++ [FragWebdriver] else s in
  s ← (if env_truthy e "FAKE_HARDWARE_CONCURRENCY"
       then n ← py_int (env_or e "FAKE_HARDWARE_CONCURRENCY" "");
            Some (s ++ [FragHardwareConcurrency n])
       else Some s);
  s ← (if env_truthy e "FAKE_DEVICE_MEMORY"
       then n ← py_int (env_or e "FAKE_DEVICE_MEMORY" "");
            Some (s ++ [FragDeviceMemory n])
       else Some s);
  let s := if on e "FP_WEBGL"
           then s ++ [FragWebgl (py_str_opt (env e "WEBGL_VENDOR"))
                        (py_str_opt (env e "WEBGL_RENDERER"))]
           else s in
  let s := if on e "FP_CANVAS" then s ++ [FragCanvas] else s in
  let s := if on e "FP_AUDIO" then s ++ [FragAudio] else s in
  let s := if on e "FP_DETECT" then s ++ [FragDetect] else s in
  Some s.
End init_script.

Definition set_navigator (k : string) (v : jval) (w : window) : window :=
  Window (fp_used w) (getParameter w) (toDataURL w) (getChannelData w)
    (<[k := v]> (navigator_props w)).

(** What a fragment does when the browser runs the init script in a new
    document.  The detection fragment of this file has no guard. *)
Definition run_fragment (w : window) (f : fragment) : window :=
  match f with
  | FragWebdriver => set_navigator "webdriver" JNull w
  | FragHardwareConcurrency n => set_navigator "hardwareConcurrency" (JNum n) w
  | FragDeviceMemory n => set_navigator "deviceMemory" (JNum n) w
  | FragWebgl vendor renderer => webgl_override vendor renderer w
  | FragCanvas => canvas_override w
  | FragAudio => audio_override w
  | FragDetect =>
      Window (Some (Usage false false false))
        (Probe Webgl (getParameter w))
        (Probe Canvas (toDataURL w))
        (Probe Audio (getChannelData w))
        (navigator_props w)
  end.

Definition run_init_script (frags : list fragment) (w : window) : window :=
  foldl run_fragment w frags.

(** ** Canonical JSON text: [json.dumps(x, sort_keys=True)] *)

Definition hex_digit (n : N) : ascii :=
  chr (if (n <? 10)%N then 48 + n else 87 + n)%N.

Definition dquote : string := String (chr 34) "".

(** [ESCAPE_ASCII] of the json module: the quote, the backslash and every
    code point outside [' '..'~'] are escaped. *)
Definition escape_char (c : ascii) : string :=
  let n := ord c in
  if (n =? 34)%N then "\" +:+ dquote
  else if (n =? 92)%N then "\\"
  else if (n =? 10)%N then "\n"
  else if (n =? 13)%N then "\r"
  else if (n =? 9)%N then "\t"
  else if (n =? 8)%N then "\b"
  else if (n =? 12)%N then "\f"
  else if ((n <? 32) || (126 <? n))%N
  then "\u00" +:+ String (hex_digit (n / 16)) (String (hex_digit (n mod 16)) "")
  else String c "".

Fixpoint escape (s : string) : string :=
  match s with
  | "" => ""
  | String c s' => escape_char c +:+ escape s'
  end.

Definition quote (s : string) : string := dquote +:+ escape s +:+ dquote.

Fixpoint join (sep : string) (l : list string) : string :=
  match l with
  | [] => ""
  | [x] => x
  | x :: l' => x +:+ sep +:+ join sep l'
  end.

(** Items in the order of their keys (code point order, as [sorted] on
    [str] keys). *)
Fixpoint insert_item (kv : string * string) (l : list (string * string))
    : list (string * string) :=
  match l with
  | [] => [kv]
  | x :: l' => if String.leb kv.1 x.1 then kv :: l else x :: insert_item kv l'
  end.

Definition sort_items (l : list (string * string)) : list (string * string) :=
  foldr insert_item [] l.

Definition str_of_Z (n : Z) : string := NilZero.string_of_int (Z.to_int n).

Fixpoint dumps (x : jval) : string :=
  match x with
  | JNull => "null"
  | JBool true => "true"
  | JBool false => "false"
  | JNum n => str_of_Z n
  | JStr s => quote s
  | JArr l => "[" +:+ join ", " (dumps <$> l) +:+ "]"
  | JObj m =>
      "{" +:+ join ", " ((λ kv, quote kv.1 +:+ ": " +:+ kv.2)
                           <$> sort_items (map_to_list (dumps <$> m))) +:+ "}"
  end.

(** ** SHA-256 (FIPS 180-4) on 32-bit words kept in [Z] *)

Definition w32 (x : Z) : Z := x mod 2 ^ 32.
Definition add32 (x y : Z) : Z := w32 (x + y).
Definition rotr (n x : Z) : Z := Z.lor (Z.shiftr x n) (w32 (Z.shiftl x (32 - n))).
Definition not32 (x : Z) : Z := Z.lxor x (2 ^ 32 - 1).

Definition ch (x y z : Z) : Z := Z.lxor (Z.land x y) (Z.land (not32 x) z).
Definition maj (x y z : Z) : Z :=
  Z.lxor (Z.lxor (Z.land x y) (Z.land x z)) (Z.land y z).
Definition big_sigma0 (x : Z) : Z := Z.lxor (Z.lxor (rotr 2 x) (rotr 13 x)) (rotr 22 x).
Definition big_sigma1 (x : Z) : Z := Z.lxor (Z.lxor (rotr 6 x) (rotr 11 x)) (rotr 25 x).
Definition small_sigma0 (x : Z) : Z := Z.lxor (Z.lxor (rotr 7 x) (rotr 18 x)) (Z.shiftr x 3).
Definition small_sigma1 (x : Z) : Z := Z.lxor (Z.lxor (rotr 17 x) (rotr 19 x)) (Z.shiftr x 10).

(** The constants of the standard are taken from the first primes: the
    round constants are the first 32 bits of the fractional parts of the
    cube roots of the first 64 primes, the initial hash value those of the
    square roots of the first 8. *)
Definition is_prime (n : nat) : bool :=
  forallb (λ d, negb (Nat.eqb (n mod d) 0)) (seq 2 (n - 2)).

Definition first_primes : list Z := Z.of_nat <$> filter (λ n, is_prime n = true) (seq 2 310).

(** Integer cube root, one bit at a time from bit [n - 1] down. *)
Fixpoint icbrt_bits (n : nat) (x r : Z) : Z :=
  match n with
  | 0 => r
  | S n' =>
      let c := (r + 2 ^ Z.of_nat n')%Z in
      if (c * c * c <=? x)%Z then icbrt_bits n' x c else icbrt_bits n' x r
  end.

Definition K256 : list Z :=
  (λ p, w32 (icbrt_bits 40 (p * 2 ^ 96) 0)) <$> first_primes.

Definition sha256_init : list Z :=
  (λ p, w32 (Z.sqrt (p * 2 ^ 64))) <$> take 8 first_primes.

(** [s.encode("utf-8")] for code points below 256. *)
Fixpoint encode_utf8 (s : string) : list Z :=
  match s with
  | "" => []
  | String c s' =>
      let n := Z.of_N (ord c) in
      if (n <? 128)%Z then n :: encode_utf8 s'
      else (192 + n / 64)%Z :: (128 + n mod 64)%Z :: encode_utf8 s'
  end.

(** Big-endian bytes of [x], [n] of them. *)
Fixpoint be_bytes (n : nat) (x : Z) : list Z :=
  match n with
  | 0 => []
  | S n' => be_bytes n' (x / 256) ++ [x mod 256]%Z
  end.

(** The message, the byte 0x80, zeros up to 56 modulo 64, and the length
    in bits on eight bytes. *)
Definition sha256_pad (msg : list Z) : list Z :=
  let len := Z.of_nat (length msg) in
  let zeros := Z.to_nat ((55 - len) mod 64) in
  msg ++ [128%Z] ++ replicate zeros 0%Z ++ be_bytes 8 (8 * len).

Fixpoint be_words (fuel : nat) (bytes : list Z) : list Z :=
  match fuel, bytes with
  | S fuel', a :: b :: c :: d :: rest =>
      (((a * 256 + b) * 256 + c) * 256 + d)%Z :: be_words fuel' rest
  | _, _ => []
  end.

(** The message schedule: [fuel] more words after the ones in [w]. *)
Fixpoint schedule (fuel : nat) (w : list Z) : list Z :=
  match fuel with
  | 0 => w
  | S fuel' =>
      let t := length w in
      let word i := nth (t - i) w 0%Z in
      schedule fuel'
        (w ++ [add32 (add32 (small_sigma1 (word 2)) (word 7))
                 (add32 (small_sigma0 (word 15)) (word 16))])
  end.

Definition sha256_round (st : list Z) (kw : Z * Z) : list Z :=
  match st with
  | [a; b; c; d; e; f; g; h] =>
      let t1 := add32 (add32 (add32 h (big_sigma1 e)) (add32 (ch e f g) kw.1)) kw.2 in
      let t2 := add32 (big_sigma0 a) (maj a b c) in
      [add32 t1 t2; a; b; c; add32 d t1; e; f; g]
  | _ => st
  end.

Definition sha256_block (st : list Z) (block : list Z) : list Z :=
  let w := schedule 48 (be_words 16 block) in
  zip_with add32 st (foldl sha256_round st (zip K256 w)).

Fixpoint sha256_blocks (fuel : nat) (st : list Z) (bytes : list Z) : list Z :=
  match fuel, bytes with
  | S fuel', _ :: _ => sha256_blocks fuel' (sha256_block st (take 64 bytes)) (drop 64 bytes)
  | _, _ => st
  end.

Definition sha256 (msg : list Z) : list Z :=
  let padded := sha256_pad msg in
  sha256_blocks (length padded) sha256_init padded.

Fixpoint hex_of_bytes (bytes : list Z) : string :=
  match bytes with
  | [] => ""
  | b :: rest =>
      String (hex_digit (Z.to_N (b / 16)))
        (String (hex_digit (Z.to_N (b mod 16))) (hex_of_bytes rest))
  end.

(** [hashlib.sha256(data).hexdigest()] *)
Definition hexdigest (data : list Z) : string :=
  hex_of_bytes (mjoin (be_bytes 4 <$> sha256 data)).

Fixpoint str_take (n : nat) (s : string) : string :=
  match n, s with
  | S n', String c s' => String c (str_take n' s')
  | _, _ => ""
  end.

(** ** Capture and diff (uncompletedbest.py, lines 22, 91-97, 121-126) *)

(** [sha(s)]: the first twelve hexadecimal digits of the digest. *)
Definition sha (s : string) : string := str_take 12 (hexdigest (encode_utf8 s)).

(** The request object of the browser library, as [normalize_req] reads
    it; [headers] lists the items of its dictionary. *)
Record request := Request {
  req_url : string;
  req_method : string;
  req_headers : list (string * string);
  req_post_data : option string
}.

(** [normalize_req(req)] *)
Definition normalize_req (req : request) : jval :=
  JObj (<["url" := JStr (req_url req)]>
       (<["method" := JStr (req_method req)]>
       (<["headers" :=
            JObj (foldl (λ m kv, <[lower kv.1 := JStr kv.2]> m) ∅ (req_headers req))]>
       (<["postData" :=
            JStr (match req_post_data req with
                  | Some d => d        (* [None or ""] and ["" or ""] are [""] *)
                  | None => ""
                  end)]> ∅)))).

(** The content hash of a record. *)
Definition rho (x : jval) : string := sha (dumps x).

(** [{sha(json.dumps(x, sort_keys=True)): x for x in l}]: a later record
    replaces an earlier one under the same key. *)
Definition index_by_hash (l : list jval) : gmap string jval :=
  foldl (λ m x, <[rho x := x]> m) ∅ l.

Record diff_result := DiffResult { added : list jval; removed : list jval }.

(** [diff_requests(a, b)].  The difference of the two key views is a set:
    the order in which it is listed is not specified and the model takes
    the one of [elements].  [sb[k]] cannot fail, [k] being a key of [sb]. *)
Definition diff_requests (a b : list jval) : diff_result :=
  let sa := index_by_hash a in
  let sb := index_by_hash b in
  let added := (λ k, sb !!! k) <$> elements (dom sb ∖ dom sa) in
  let removed := (λ k, sa !!! k) <$> elements (dom sa ∖ dom sb) in
  DiffResult added removed.

(** ** The session runner (uncompletedbest.py, lines 131-178) *)

(** The calls of [run_account] that leave the program, in the order of
    the source. *)
Inductive ext_call :=
  | LoadSitePolicy | MkdirArtifacts | Launch | NewContext | AddInitScript
  | AlignAndCapture | NewPage
  | Goto | WaitForSelector
  | DumpRequests | StorageState | CtxClose | BrowserClose.

Inductive log_line :=
  | LogNavigating | LogNavigationError | LogStorageSaved | LogFinished.

Inductive event :=
  | Called (c : ext_call)
  | Logged (l : log_line).

Global Instance ext_call_eq_dec : EqDecision ext_call.
Proof. solve_decision. Defined.
Global Instance log_line_eq_dec : EqDecision log_line.
Proof. solve_decision. Defined.
Global Instance event_eq_dec : EqDecision event.
Proof. solve_decision. Defined.

(** What [except Exception] tells apart: the subclasses of [Exception]
    (a timeout, a navigation error) and the other exceptions
    ([CancelledError], [KeyboardInterrupt]). *)
Inductive exn :=
  | ExException (what : string)
  | ExBase (what : string).

Inductive outcome (A : Type) :=
  | Returned (a : A)
  | Raised (x : exn).
Arguments Returned {A} a.
Arguments Raised {A} x.

(** Computations that append to the trace of events and return or raise. *)
Definition M (A : Type) : Type := list event → list event * outcome A.

Global Instance M_ret : MRet M := λ A a tr, (tr, Returned a).
Global Instance M_bind : MBind M := λ A B k m tr,
  match m tr with
  | (tr', Returned a) => k a tr'
  | (tr', Raised x) => (tr', Raised x)
  end.

Definition emit (ev : event) : M unit := λ tr, (tr ++ [ev], Returned ()).

(** An external call: it is recorded, then it returns or raises as the
    oracle says. *)
Definition call (o : ext_call → option exn) (c : ext_call) : M unit := λ tr,
  (tr ++ [Called c], match o c with None => Returned () | Some x => Raised x end).

(** [try: body / except Exception as e: handler e] *)
Definition try_except (body : M unit) (handler : exn → M unit) : M unit := λ tr,
  match body tr with
  | (tr', Raised (ExException what)) => handler (ExException what) tr'
  | r => r
  end.

(** [try: body / finally: fin], where [fin] ends with a [return]: the
    block [fin] runs whatever [body] did, and its [return] replaces an
    exception that was on its way; an exception of [fin] itself leaves. *)
Definition finally_return {A} (body : M unit) (fin : M A) : M A := λ tr,
  fin (body tr).1.

(** [run_account(p, account_id)] under the environment [e] (the policy of
    the target applied); [captured] is what the request listener has put
    in the buffer. *)
Definition run_account (e : gmap string string) (o : ext_call → option exn)
    (captured : list jval) : M (list jval) :=
  _ ← call o LoadSitePolicy;
  _ ← call o MkdirArtifacts;
  _ ← call o Launch;
  _ ← call o NewContext;
  _ ← call o AddInitScript;
  _ ← call o AlignAndCapture;
  _ ← call o NewPage;
  finally_return
    (try_except
       (_ ← emit (Logged LogNavigating);
        _ ← call o Goto;
        if env_truthy e "WAIT_FOR_SELECTOR" then call o WaitForSelector
        else mret ())
       (λ x, emit (Logged LogNavigationError)))
    (_ ← call o DumpRequests;
     _ ← (if on e "EXPORT_STORAGE"
          then _ ← call o StorageState; emit (Logged LogStorageSaved)
          else mret ());
     _ ← call o CtxClose;
     _ ← call o BrowserClose;
     _ ← emit (Logged LogFinished);
     mret captured).

(** The calls before the [try] and the calls of the [finally] block. *)
Definition setup_calls : list ext_call :=
  [LoadSitePolicy; MkdirArtifacts; Launch; NewContext; AddInitScript;
   AlignAndCapture; NewPage].
Definition finalize_calls : list ext_call :=
  [DumpRequests; StorageState; CtxClose; BrowserClose].

Definition navigation_failed (e : gmap string string) (o : ext_call → option exn) : bool :=
  match o Goto with
  | Some _ => true
  | None => env_truthy e "WAIT_FOR_SELECTOR" && bool_decide (is_Some (o WaitForSelector))
  end.

(** ** The orchestrator (uncompletedbest.py, lines 183-194) *)

(** One account: what its browser does ([s_oracle], [s_captured]) and at
    how many [await]s its [run_account] is suspended before it ends. *)
Record session := Session {
  s_oracle : ext_call → option exn;
  s_captured : list jval;
  s_awaits : nat
}.

(** What [await run_account(p, acc_id)] gives for this account. *)
Definition session_outcome (e : gmap string string) (ss : session)
    : outcome (list jval) :=
  (run_account e (s_oracle ss) (s_captured ss) []).2.

(** A task [sem_task(acc_id)]: before [async with semaphore] lets it in,
    inside (with the number of suspensions left), ended. *)
Inductive phase :=
  | Pending
  | Running (left : nat)
  | Finished (r : outcome (list jval)).

(** The event loop while [run_multiple_accounts] awaits [gather]. *)
Record orch := Orch {
  sem_value : nat;                                   (* counter of the semaphore *)
  phases : list phase;                               (* one task per account, in order *)
  gathered : option (outcome (list (list jval)))     (* what [gather] gave, once it has *)
}.

Inductive action :=
  | Acquire (i : nat)     (* task [i] gets through [async with semaphore] *)
  | Resume (i : nat)      (* task [i] goes on from one [await] to the next *)
  | Complete (i : nat)    (* [run_account] of task [i] ends, the semaphore is released *)
  | Gather.               (* every task has returned: [gather] returns the list *)

Definition is_running (p : phase) : bool :=
  match p with Running _ => true | _ => false end.

(** Sessions inside the region guarded by the semaphore. *)
Definition active (s : orch) : nat := length (filter (λ p, is_running p = true) (phases s)).

(** The results of the tasks in the order of the tasks, when all of them
    returned. *)
Fixpoint collect (ps : list phase) : option (list (list jval)) :=
  match ps with
  | [] => Some []
  | Finished (Returned r) :: ps' => rs ← collect ps'; Some (r :: rs)
  | _ :: _ => None
  end.

Section orchestrator.
Variable e : gmap string string.
Variable sessions : list session.

Definition step (a : action) (s : orch) : option orch :=
  match a with
  | Acquire i =>
      match phases s !! i, sessions !! i, sem_value s with
      | Some Pending, Some ss, S v =>
          Some (Orch v (<[i := Running (s_awaits ss)]> (phases s)) (gathered s))
      | _, _, _ => None
      end
  | Resume i =>
      match phases s !! i with
      | Some (Running (S n)) =>
          Some (Orch (sem_value s) (<[i := Running n]> (phases s)) (gathered s))
      | _ => None
      end
  | Complete i =>
      match phases s !! i, sessions !! i with
      | Some (Running 0), Some ss =>
          let r := session_outcome e ss in
          Some (Orch (S (sem_value s)) (<[i := Finished r]> (phases s))
                  (match gathered s, r with
                   | None, Raised x => Some (Raised x)   (* [gather] raises at once *)
                   | g, _ => g
                   end))
      | _, _ => None
      end
  | Gather =>
      match gathered s, collect (phases s) with
      | None, Some rs => Some (Orch (sem_value s) (phases s) (Some (Returned rs)))
      | _, _ => None
      end
  end.

Fixpoint exec (sched : list action) (s : orch) : option orch :=
  match sched with
  | [] => Some s
  | a :: sched' => s' ← step a s; exec sched' s'
  end.

(** [run_multiple_accounts(account_ids, concurrency)] up to the
    [await]: the semaphore is created ([ValueError] for a negative
    value, [None] here) and one task per account is made. *)
Definition run_multiple_accounts (concurrency : Z) : option orch :=
  if (concurrency <? 0)%Z then None
  else Some (Orch (Z.to_nat concurrency) (replicate (length sessions) Pending) None).

(** Work left: what remains of each task, and one for [gather]. *)
Definition phase_weight (ss : session) (p : phase) : nat :=
  match p with
  | Pending => s_awaits ss + 2
  | Running n => n + 1
  | Finished _ => 0
  end.

Definition work_left (s : orch) : nat :=
  sum_list (zip_with phase_weight sessions (phases s))
  + (match gathered s with Some _ => 0 | None => 1 end).
End orchestrator.

(** ** Well-shaped cookie records, and a sample file *)

(** A field that the two rules accept without raising: a string, or a
    value that counts as false ([None], a missing key, [0], ...). *)
Definition field_ok (v : jval) : bool :=
  negb (truthy v) || bool_decide (is_Some (as_str v)).

Definition cookie_ok (c : gmap string jval) : bool :=
  field_ok (dict_get c "domain") && field_ok (dict_get_or c "path" (JStr "/")).

(** A driver that keeps the cookies it took and refuses those without a
    name; a file of four records for the target below. *)
Definition jar_add_cookie (c : gmap string jval) (jar : list (gmap string jval))
    : list (gmap string jval) * bool :=
  if truthy (dict_get c "name") then (jar ++ [c], true) else (jar, false).

Definition sample_target : target :=
  Target "http://www.example.com/api/v2/x" "http" (Some "www.example.com") "/api/v2/x".

Definition sample_cookies : list (gmap string jval) := [
  {[ "name" := JStr "sid"; "value" := JStr "1"; "domain" := JStr ".example.com";
     "path" := JStr "/api"; "sameSite" := JStr "Lax" ]};
  {[ "name" := JStr "other"; "value" := JStr "2"; "domain" := JStr "example.org" ]};
  {[ "name" := JStr "locked"; "value" := JStr "3"; "domain" := JStr "example.com";
     "secure" := JBool true ]};
  {[ "value" := JStr "4"; "domain" := JStr "example.com"; "path" := JNull ]}
].

(** ** Sample environments for the fingerprint steps *)

Definition env_webgl_detect : gmap string string :=
  {[ "FP_WEBGL" := "1"; "FP_DETECT" := "1";
     "WEBGL_VENDOR" := "Intel Inc."; "WEBGL_RENDERER" := "Intel Iris OpenGL Engine" ]}.

Definition env_audio_detect : gmap string string :=
  {[ "FP_AUDIO" := "1"; "FP_DETECT" := "1" ]}.

(** ** Capture sequences without colliding records, and two records that
    collide *)

(** No two different records of [l] have the same content hash. *)
Definition collision_free (l : list jval) : Prop :=
  ∀ x y, x ∈ l → y ∈ l → rho x = rho y → x = y.

(** Two GET requests whose records differ in the query of the URL and
    have the same twelve first digits of the digest. *)
Definition track_a : jval :=
  normalize_req (Request "https://example.com/track?id=15167708" "GET" [] None).
Definition track_b : jval :=
  normalize_req (Request "https://example.com/track?id=42939836" "GET" [] None).

(** The example of the specification: a login request, a tracking request,
    and the tracking request with one more header. *)
Definition capture_login : jval :=
  normalize_req (Request "https://example.com/login" "GET"
                   [("Accept", "text/html")] None).
Definition capture_track : jval :=
  normalize_req (Request "https://example.com/track" "GET"
                   [("Accept", "image/gif")] None).
Definition capture_track_v2 : jval :=
  normalize_req (Request "https://example.com/track" "GET"
                   [("Accept", "image/gif"); ("X-Trace", "1")] None).

(** ** Sessions whose own steps succeed, and sample sessions *)

(** What the [finally] block of [run_account] leaves in the trace when
    none of its calls raises. *)
Definition finalize_trace (e : gmap string string) : list event :=
  [Called DumpRequests]
  ++ (if on e "EXPORT_STORAGE" then [Called StorageState; Logged LogStorageSaved] else [])
  ++ [Called CtxClose; Called BrowserClose; Logged LogFinished].

(** The calls around the navigation return normally: the browser starts,
    the artifacts can be written, the context and the browser close.
    Nothing is asked of the navigation and of the readiness wait. *)
Definition session_ok (o : ext_call → option exn) : Prop :=
  Forall (λ c, o c = None) (setup_calls ++ finalize_calls).

Definition is_finished (p : phase) : bool :=
  match p with Finished _ => true | _ => false end.

(** Oracles: nothing raises; the navigation times out; the readiness wait
    is cancelled; the dump of the requests fails. *)
Definition oracle_clean : ext_call → option exn := λ _, None.
Definition oracle_timeout : ext_call → option exn := λ c,
  if decide (c = Goto) then Some (ExException "Timeout 3600000ms exceeded") else None.
Definition oracle_cancelled : ext_call → option exn := λ c,
  if decide (c = WaitForSelector) then Some (ExBase "CancelledError") else None.
Definition oracle_disk_full : ext_call → option exn := λ c,
  if decide (c = DumpRequests) then Some (ExException "No space left on device") else None.

Definition env_wait_export : gmap string string :=
  {[ "WAIT_FOR_SELECTOR" := "#app"; "EXPORT_STORAGE" := "1" ]}.

Definition sample_sessions : list session := [
  Session oracle_clean [capture_login; capture_track] 3;
  Session oracle_timeout [capture_login] 1;
  Session oracle_cancelled [] 2;
  Session oracle_clean [capture_login; capture_track_v2] 0
].

(** ** What holds in every state of the event loop *)

Section orchestrator_invariant.
Variable e : gmap string string.
Variable sessions : list session.
Variable capacity : nat.

(** One task per account; the counter of the semaphore and the tasks
    inside add up to the capacity; an ended task holds the outcome of its
    session; [gather] has raised as soon as a task has, with the exception
    of a task; the list [gather] returned is the one of the tasks. *)
Definition orch_inv (s : orch) : Prop :=
  length (phases s) = length sessions ∧
  sem_value s + active s = capacity ∧
  (∀ i r, phases s !! i = Some (Finished r) →
     ∃ ss, sessions !! i = Some ss ∧ r = session_outcome e ss) ∧
  (gathered s = None → ∀ i x, phases s !! i ≠ Some (Finished (Raised x))) ∧
  (∀ x, gathered s = Some (Raised x) →
     ∃ i, phases s !! i = Some (Finished (Raised x))) ∧
  (∀ rs, gathered s = Some (Returned rs) → collect (phases s) = Some rs).
End orchestrator_invariant.

(** A run of the four sample sessions under a semaphore of two: two tasks
    get in, one of them goes on by one step. *)
Definition sample_schedule : list action := [Acquire 0; Acquire 2; Resume 0].

Definition sample_start : orch := Orch 2 [Pending; Pending; Pending; Pending] None.
Definition sample_state : orch := Orch 0 [Running 2; Pending; Running 2; Pending] None.

(** ** The three checks of the cookie loop, and the cookies that pass *)

(** What the loop of [load_cookies_domain_safe] decides for one record:
    [None] when a check raises, [Some true] when the record is handed to
    the driver. *)
Definition cookie_check (p : target) (req_path : string) (c : gmap string jval)
    : option bool :=
  let c := delete "sameSite" c in
  dm ← _domain_match (dict_get c "domain") (jval_of_opt (hostname p));
  if negb dm then Some false
  else
    pm ← _path_match (dict_get_or c "path" (JStr "/")) (JStr req_path);
    if negb pm then Some false
    else Some (negb (truthy (dict_get c "secure") && negb (String.eqb (scheme p) "https"))).

(** The records handed to the driver, as the driver gets them. *)
Definition offered (p : target) (req_path : string) (cookies : list (gmap string jval))
    : list (gmap string jval) :=
  delete "sameSite" <$> filter (λ c, cookie_check p req_path c = Some true) cookies.

(** The [headers] dictionary of a normalised request. *)
Definition headers_of (x : jval) : option (gmap string jval) :=
  match x with
  | JObj o => match o !! "headers" with Some (JObj h) => Some h | _ => None end
  | _ => None
  end.

(** Every character of [s] passes the test [P]. *)
Fixpoint all_chars (P : ascii → bool) (s : string) : bool :=
  match s with
  | "" => true
  | String c s' => P c && all_chars P s'
  end.

(** What the [try] block of [run_account] and its handler leave in the
    trace: the navigation, the readiness wait when one is configured and
    the navigation returned, and the error line when one of the two raised
    an [Exception]. *)
Definition navigation_trace (e : gmap string string) (o : ext_call → option exn)
    : list event :=
  [Logged LogNavigating; Called Goto]
  ++ match o Goto with
     | Some (ExException _) => [Logged LogNavigationError]
     | Some (ExBase _) => []
     | None =>
         if env_truthy e "WAIT_FOR_SELECTOR"
         then Called WaitForSelector
              :: match o WaitForSelector with
                 | Some (ExException _) => [Logged LogNavigationError]
                 | _ => []
                 end
         else []
     end.

(* ===================================================================== *)
(** * Part II: properties                                                 *)
(* ===================================================================== *)

(** ** Strings *)

Lemma startswith_prefix (s p : string) :
  startswith s p = true ↔ ∃ r, s = p +:+ r.
Proof.
  revert s. induction p as [|a p IH]; intros s; simpl.
  - split; [intros _; by exists s | done].
  - destruct s as [|b s]; simpl.
    + split; [done | intros [r Hr]; discriminate].
    + rewrite andb_true_iff, IH. split.
      * intros [Hab [r ->]]. apply Ascii.eqb_eq in Hab as ->. by exists r.
      * intros [r Hr]. injection Hr as -> ->. split; [apply Ascii.eqb_refl | by exists r].
Qed.

Lemma endswith_unfold (s suf : string) :
  endswith s suf =
    if String.eqb s suf then true
    else match s with "" => false | String _ s' => endswith s' suf end.
Proof. by destruct s. Qed.

Lemma endswith_suffix (s suf : string) :
  endswith s suf = true ↔ ∃ pre, s = pre +:+ suf.
Proof.
  split.
  - induction s as [|c s IH]; rewrite endswith_unfold.
    + destruct (String.eqb_spec "" suf) as [<-|]; [intros _; by exists "" | done].
    + destruct (String.eqb_spec (String c s) suf) as [<-|]; [intros _; by exists "" |].
      intros [pre ->]%IH. by exists (String c pre).
  - intros [pre ->]. induction pre as [|c pre IH]; rewrite endswith_unfold.
    + by rewrite String.eqb_refl.
    + by destruct (String.eqb_spec (String c pre +:+ suf) suf).
Qed.

Lemma truthy_JStr (s : string) : truthy (JStr s) = false ↔ s = "".
Proof. simpl. by destruct (String.eqb_spec s ""). Qed.

(** ** Cookie rules *)

(** What [_domain_match] computes on a cookie domain that is a string and
    not empty: every leading dot goes, both sides are lowered, and the host
    is the domain or a name below it. *)
Lemma domain_match_code (cd host : string) :
  cd ≠ "" →
  let d := lower (lstrip "." cd) in
  ∃ b, _domain_match (JStr cd) (JStr host) = Some b ∧
       (b = true ↔ lower host = d ∨ ∃ pre, lower host = pre +:+ "." +:+ d).
Proof.
  intros Hcd d. unfold _domain_match.
  destruct (truthy (JStr cd)) eqn:Ht; [|by apply truthy_JStr in Ht].
  simpl. eexists; split; [done|].
  rewrite orb_true_iff, String.eqb_eq, endswith_suffix. done.
Qed.

(** A cookie without domain, or with an empty one, matches no host: the
    function returns before it looks at the host. *)
Lemma domain_match_missing (host : jval) :
  _domain_match JNull host = Some false ∧ _domain_match (JStr "") host = Some false.
Proof. done. Qed.

(** The examples of the specification for the domain rule. *)
Lemma domain_match_examples :
  _domain_match (JStr "example.com") (JStr "example.com") = Some true ∧
  _domain_match (JStr "example.com") (JStr "www.example.com") = Some true ∧
  _domain_match (JStr "example.com") (JStr "notexample.com") = Some false ∧
  _domain_match (JStr ".Example.COM") (JStr "WWW.example.com") = Some true.
Proof. split_and?; vm_compute; reflexivity. Qed.

Lemma lstrip_one_dot (cd : string) :
  startswith cd ".." = false → lstrip "." cd = strip_one_dot cd.
Proof.
  destruct cd as [|a [|b cd]]; cbn [lstrip char_in startswith strip_one_dot];
    rewrite ?orb_false_r, ?andb_true_r; [done| |].
  - by destruct (Ascii.eqb a ".").
  - rewrite (Ascii.eqb_sym "." a), (Ascii.eqb_sym "." b).
    destruct (Ascii.eqb a "."); [|done].
    by destruct (Ascii.eqb b ".").
Qed.

(** On a domain with at most one leading dot the code follows the rule
    of the specification. *)
Lemma domain_match_refines_spec (cd host : string) :
  startswith cd ".." = false →
  _domain_match (JStr cd) (JStr host) = Some (domain_match_spec (Some cd) host).
Proof.
  intros Hdots. unfold _domain_match, domain_match_spec.
  destruct cd as [|a cd]; [done|].
  change (truthy (JStr (String a cd))) with true. cbn [negb as_str mbind option_bind].
  by rewrite (lstrip_one_dot _ Hdots).
Qed.

(** C2 (failing input): [lstrip(".")] removes every leading dot, not one.
    For the cookie domain "..example.com" and the host "example.com" the
    code answers that the cookie matches, while the rule of the claim (one
    leading dot stripped, then equality or a suffix after a dot) rejects
    it. *)
Theorem domain_match_strips_every_dot :
  _domain_match (JStr "..example.com") (JStr "example.com") = Some true ∧
  domain_match_spec (Some "..example.com") "example.com" = false.
Proof. split_and?; vm_compute; reflexivity. Qed.

(** What [_path_match] computes: an empty (or missing) cookie path matches
    everything, else the request path starts with the cookie path, a
    slash put in front of it when it has none. *)
Lemma path_match_code (cp req : string) :
  ∃ b, _path_match (JStr cp) (JStr req) = Some b ∧
       (b = true ↔
          cp = "" ∨
          ∃ r, req = (if startswith cp "/" then cp else "/" +:+ cp) +:+ r).
Proof.
  unfold _path_match. destruct (truthy (JStr cp)) eqn:Ht; simpl.
  - eexists; split; [done|]. rewrite startswith_prefix.
    split; [by right|]. intros [->|]; [done|done].
  - exists true. apply truthy_JStr in Ht. split; [done|]. by split; [left|].
Qed.

Lemma path_match_empty (req : jval) :
  _path_match (JStr "") req = Some true ∧ _path_match JNull req = Some true.
Proof. done. Qed.

(** C3 (failing input): the check is a plain [startswith].  The cookie
    path "/api" matches the request path "/api/v2/x", and it matches
    "/apiextra" as well, which the claim (and the path rule of RFC 6265,
    that the code announces) excludes. *)
Theorem path_match_plain_prefix :
  _path_match (JStr "/api") (JStr "/api/v2/x") = Some true ∧
  _path_match (JStr "/api") (JStr "/apiextra") = Some true ∧
  path_match_rfc "/api" "/api/v2/x" = true ∧
  path_match_rfc "/api" "/apiextra" = false.
Proof. split_and?; vm_compute; reflexivity. Qed.

(** ** Cookie loading *)

Lemma domain_match_total (cd : jval) (host : string) :
  field_ok cd = true → is_Some (_domain_match cd (JStr host)).
Proof.
  unfold field_ok, _domain_match. destruct (truthy cd); simpl; [|done].
  intros [s Hs]%bool_decide_eq_true. by rewrite Hs.
Qed.

Lemma path_match_total (cp : jval) (req : string) :
  field_ok cp = true → is_Some (_path_match cp (JStr req)).
Proof.
  unfold field_ok, _path_match. destruct (truthy cp); simpl; [|done].
  intros [s Hs]%bool_decide_eq_true. by rewrite Hs.
Qed.

Lemma dict_get_delete_ne (c : gmap string jval) (k k' : string) :
  k ≠ k' → dict_get (delete k c) k' = dict_get c k'.
Proof. intros. unfold dict_get. by rewrite lookup_delete_ne. Qed.

Lemma dict_get_or_delete_ne (c : gmap string jval) (k k' : string) (d : jval) :
  k ≠ k' → dict_get_or (delete k c) k' d = dict_get_or c k' d.
Proof. intros. unfold dict_get_or. by rewrite lookup_delete_ne. Qed.

Section cookie_loading_facts.
Context {Driver : Type}.
Variable drv_get : string → Driver → option Driver.
Variable drv_refresh : Driver → option Driver.
Variable drv_add_cookie : gmap string jval → Driver → Driver * bool.

(** Every record moves exactly one of the two counters. *)
Lemma cookie_loop_counts p req_path cookies drv a s drv' a' s' :
  cookie_loop drv_add_cookie p req_path cookies drv a s = Some (drv', a', s') →
  a' + s' = a + s + length cookies.
Proof.
  revert drv a s. induction cookies as [|c rest IH]; intros drv a s; simpl.
  - intros [= <- <- <-]. lia.
  - destruct (_domain_match _ _) as [[]|]; simpl; [| |done].
    + destruct (_path_match _ _) as [[]|]; simpl; [| |done].
      * destruct (truthy _ && _).
        { intros ->%IH. lia. }
        destruct (drv_add_cookie _ _) as [drv1 []]; intros ->%IH; lia.
      * intros ->%IH. lia.
    + intros ->%IH. lia.
Qed.

(** On records whose domain and path are strings (or missing) the loop
    raises nothing. *)
Lemma cookie_loop_total p req_path cookies drv a s :
  is_Some (hostname p) →
  Forall (λ c, cookie_ok c = true) cookies →
  is_Some (cookie_loop drv_add_cookie p req_path cookies drv a s).
Proof.
  intros [h Hh] Hok. revert drv a s.
  induction Hok as [|c rest [Hd Hp]%andb_true_iff _ IH]; intros drv a s; simpl; [done|].
  rewrite Hh. simpl.
  rewrite !dict_get_delete_ne, !dict_get_or_delete_ne by done.
  destruct (domain_match_total _ h Hd) as [[] ->]; simpl; [|apply IH].
  destruct (path_match_total _ req_path Hp) as [[] ->]; simpl; [|apply IH].
  destruct (truthy _ && _); [apply IH|].
  destruct (drv_add_cookie _ _) as [drv1 []]; apply IH.
Qed.

(** C10: when [load_cookies_domain_safe] has gone through a file of [n]
    records and logs its two counters, they add up to [n]; and it does
    get there whenever the target has a host, the domain and path of
    every record are strings (or missing), and the driver can load the
    pages. *)
Theorem load_cookies_counters_sum drv cookies p :
  (∀ drv' a s,
     load_cookies_domain_safe drv_get drv_refresh drv_add_cookie drv (Some cookies) p
       = Some (drv', CookiesApplied a s) →
     a + s = length cookies) ∧
  (is_Some (hostname p) →
   Forall (λ c, cookie_ok c = true) cookies →
   (∀ url d, is_Some (drv_get url d)) →
   (∀ d, is_Some (drv_refresh d)) →
   ∃ drv' a s,
     load_cookies_domain_safe drv_get drv_refresh drv_add_cookie drv (Some cookies) p
       = Some (drv', CookiesApplied a s) ∧
     a + s = length cookies).
Proof.
  unfold load_cookies_domain_safe. split.
  - intros drv' a s.
    destruct (drv_get _ drv) as [d1|]; simpl; [|done].
    destruct (cookie_loop _ _ _ _ _ _ _) as [[[d2 a2] s2]|] eqn:Hloop; simpl; [|done].
    destruct (drv_get _ d2) as [d3|]; simpl; [|done].
    destruct (drv_refresh d3) as [d4|]; simpl; [|done].
    intros [= <- <- <-]. by apply cookie_loop_counts in Hloop.
  - intros Hhost Hok Hget Hrefresh.
    destruct (Hget (scheme p +:+ "://" +:+ py_str_opt (hostname p) +:+ "/") drv)
      as [d1 ->]. simpl.
    destruct (cookie_loop_total p (if String.eqb (path p) "" then "/" else path p)
                cookies d1 0 0 Hhost Hok) as [[[d2 a2] s2] Hloop].
    rewrite Hloop. simpl.
    destruct (Hget (target_url p) d2) as [d3 ->]. simpl.
    destruct (Hrefresh d3) as [d4 ->]. simpl.
    exists d4, a2, s2. split; [done|]. by apply cookie_loop_counts in Hloop.
Qed.
End cookie_loading_facts.

Lemma load_cookies_counters_sum_witness :
  ∃ jar a s,
    load_cookies_domain_safe (λ _ d, Some d) Some jar_add_cookie []
      (Some sample_cookies) sample_target = Some (jar, CookiesApplied a s) ∧
    a + s = length sample_cookies.
Proof.
  apply (proj2 (load_cookies_counters_sum (λ _ d, Some d) Some jar_add_cookie
                  [] sample_cookies sample_target)).
  - by eexists.
  - repeat constructor.
  - by eexists.
  - by eexists.
Defined.

Example load_cookies_sample :
  load_cookies_domain_safe (λ _ d, Some d) Some jar_add_cookie []
    (Some sample_cookies) sample_target
  = Some ([delete "sameSite" (sample_cookies !!! 0%nat)], CookiesApplied 1 3).
Proof. split_and?; vm_compute; reflexivity. Qed.

(** ** Fingerprint observation and overrides *)

Lemma slot_set_slot (s s' : surface) (f : jsfun) (w : window) :
  slot s (set_slot s' f w) = if decide (s = s') then f else slot s w.
Proof. by destruct s, s'. Qed.

Lemma page_call_slot (s : surface) (w : window) (c : surface * Z) :
  slot s (page_call w c) = slot s w.
Proof. by destruct s. Qed.

Lemma page_activity_slot (s : surface) (calls : list (surface * Z)) (w : window) :
  slot s (page_activity calls w) = slot s w.
Proof.
  revert w. induction calls as [|c calls IH]; intros w; [done|].
  unfold page_activity in *. simpl. by rewrite IH, page_call_slot.
Qed.

(** The probes add no patch. *)
Lemma inject_fp_detection_patch_layers (e : gmap string string) (s : surface) (w : window) :
  patch_layers s (slot s (inject_fp_detection e w)) = patch_layers s (slot s w).
Proof.
  unfold inject_fp_detection, detect_script.
  destruct (on e "FP_DETECT"), (fp_used w); by destruct s.
Qed.

(** [apply_fp_overrides] adds one patch to a surface exactly when the
    report has the flag of the surface and the switch is on. *)
Lemma apply_fp_overrides_gated (e : gmap string string) (used : gmap string jval)
    (s : surface) (w : window) :
  patch_layers s (slot s (apply_fp_overrides e used w)) =
  patch_layers s (slot s w)
  + (if truthy (dict_get used (report_key s)) && on e (toggle s) then 1 else 0).
Proof.
  unfold apply_fp_overrides, webgl_override, canvas_override, audio_override.
  destruct (truthy (dict_get used "webgl") && on e "FP_WEBGL") eqn:Hw,
           (truthy (dict_get used "canvas") && on e "FP_CANVAS") eqn:Hc,
           (truthy (dict_get used "audio") && on e "FP_AUDIO") eqn:Ha;
    destruct s; simpl; rewrite ?Hw, ?Hc, ?Ha; lia.
Qed.

(** In the login flow of main.py a surface is patched only if the report
    read after the observation window has its flag, and the switch of the
    surface is on. *)
Lemma browser_login_patches_only_used (e : gmap string string)
    (calls : list (surface * Z)) (s : surface) :
  let '(used, w) := browser_login_fingerprint e calls fresh_window in
  patched s w = true →
  truthy (dict_get used (report_key s)) = true ∧ on e (toggle s) = true.
Proof.
  unfold browser_login_fingerprint, patched.
  rewrite apply_fp_overrides_gated, page_activity_slot, inject_fp_detection_patch_layers.
  replace (patch_layers s (slot s fresh_window)) with 0 by by destruct s.
  destruct (truthy _ && on _ _) eqn:H; [|done].
  by apply andb_true_iff in H.
Qed.

Lemma flag_mark (s s' : surface) (u : usage) :
  flag s (mark s' u) = if decide (s = s') then true else flag s u.
Proof. by destruct s, s'. Qed.

Lemma read_fp_used_flag (s : surface) (w : window) :
  truthy (dict_get (read_fp_used w) (report_key s)) = from_option (flag s) false (fp_used w).
Proof. unfold read_fp_used. destruct (fp_used w) as [[]|]; by destruct s. Qed.

Lemma page_activity_untouched (s : surface) (calls : list (surface * Z)) (w : window) :
  (∀ s' arg, touched (invoke (slot s' w) arg) = [] ∨ touched (invoke (slot s' w) arg) = [s']) →
  Forall (λ c, c.1 ≠ s) calls →
  from_option (flag s) false (fp_used (page_activity calls w))
  = from_option (flag s) false (fp_used w).
Proof.
  intros Hslots Hcalls. revert w Hslots.
  induction Hcalls as [|[s' arg] calls Hne _ IH]; intros w Hslots; [done|].
  unfold page_activity in *. simpl. rewrite IH.
  - unfold page_call. simpl.
    destruct (Hslots s' arg) as [-> | ->]; simpl; [by destruct w|].
    destruct w as [[u|] ? ? ? ?]; simpl; [|done].
    rewrite flag_mark. by destruct (decide (s = s')) as [->|].
  - intros s'' arg'. rewrite page_call_slot. apply Hslots.
Qed.

(** A surface that the page does not call during the observation window
    has a false flag in the report, and is not patched, whatever the
    switches are. *)
Lemma browser_login_untouched_not_patched (e : gmap string string)
    (calls : list (surface * Z)) (s : surface) :
  Forall (λ c, c.1 ≠ s) calls →
  let '(used, w) := browser_login_fingerprint e calls fresh_window in
  truthy (dict_get used (report_key s)) = false ∧ patched s w = false.
Proof.
  intros Hcalls.
  pose proof (browser_login_patches_only_used e calls s) as Honly.
  unfold browser_login_fingerprint in *.
  assert (truthy (dict_get (read_fp_used (page_activity calls
            (inject_fp_detection e fresh_window))) (report_key s)) = false) as Hflag.
  { rewrite read_fp_used_flag, page_activity_untouched; [|..|done].
    - unfold inject_fp_detection. by destruct (on e "FP_DETECT"), s.
    - intros s' arg. unfold inject_fp_detection.
      destruct (on e "FP_DETECT"); destruct s'; simpl; auto. }
  split; [done|].
  destruct (patched s _) eqn:Hp; [|done].
  destruct (Honly eq_refl) as [Hused _]. congruence.
Qed.

(** X7: The script of [inject_fp_detection] has a guard: a second run finds
    the flags and leaves the page as it is. *)
Lemma inject_fp_detection_idempotent (e : gmap string string) (w : window) :
  inject_fp_detection e (inject_fp_detection e w) = inject_fp_detection e w.
Proof.
  unfold inject_fp_detection, detect_script.
  destruct (on e "FP_DETECT"); [|done].
  destruct (fp_used w) eqn:Hused; simpl; by rewrite ?Hused.
Qed.

(** C4 (failing input): the init script of the account runner is put
    together from the switches alone.  With the graphics switch on, the
    override of the graphics query is installed in every document before
    any page script runs; on a page that only exports a canvas the report
    has [webgl = false], and the graphics query is patched all the same.
    The login flow of main.py, on the same input, leaves it alone. *)
Theorem init_script_patches_unobserved_surface (py_int : string → option Z) :
  ∃ frags,
    fingerprint_init_script py_int env_webgl_detect = Some frags ∧
    let w := page_activity [(Canvas, 0%Z)] (run_init_script frags fresh_window) in
    read_fp_used w !! "webgl" = Some (JBool false) ∧
    read_fp_used w !! "canvas" = Some (JBool true) ∧
    patched Webgl w = true ∧
    patched Webgl
      (browser_login_fingerprint env_webgl_detect [(Canvas, 0%Z)] fresh_window).2 = false.
Proof.
  exists [FragWebgl "Intel Inc." "Intel Iris OpenGL Engine"; FragDetect].
  split; [vm_compute; reflexivity|].
  cbv zeta. split_and!; vm_compute; reflexivity.
Qed.


(** ** SHA-256 and the canonical text: known answers *)

Example sha256_constants :
  length K256 = 64 ∧ K256 !! 0 = Some 0x428a2f98%Z ∧ K256 !! 63 = Some 0xc67178f2%Z ∧
  sha256_init !! 0 = Some 0x6a09e667%Z ∧ sha256_init !! 7 = Some 0x5be0cd19%Z.
Proof. split_and?; vm_compute; reflexivity. Qed.

Example sha256_abc :
  hexdigest (encode_utf8 "abc")
  = "ba7816bf8f01cfea414140de5dae2223b00361a396177a9cb410ff61f20015ad".
Proof. split_and?; vm_compute; reflexivity. Qed.

Example sha256_empty :
  hexdigest (encode_utf8 "")
  = "e3b0c44298fc1c149afbf4c8996fb92427ae41e4649b934ca495991b7852b855".
Proof. split_and?; vm_compute; reflexivity. Qed.

Example sha256_two_blocks :
  hexdigest (encode_utf8 "abcdbcdecdefdefgefghfghighijhijkijkljklmklmnlmnomnopnopq")
  = "248d6a61d20638b8e5c026930c3e6039a33ce45964ff2167f6ecedd419db06c1".
Proof. split_and?; vm_compute; reflexivity. Qed.

Example dumps_track_a :
  dumps track_a
  = "{" +:+ quote "headers" +:+ ": {}, " +:+ quote "method" +:+ ": " +:+ quote "GET"
    +:+ ", " +:+ quote "postData" +:+ ": " +:+ quote "" +:+ ", " +:+ quote "url"
    +:+ ": " +:+ quote "https://example.com/track?id=15167708" +:+ "}".
Proof. split_and?; vm_compute; reflexivity. Qed.

Example dumps_nested :
  dumps (JObj {[ "b" := JArr [JNum 1; JBool true; JNull; JStr "x\y"];
                 "a" := JObj ∅; "B" := JNum (-3) ]})
  = "{" +:+ quote "B" +:+ ": -3, " +:+ quote "a" +:+ ": {}, " +:+ quote "b"
    +:+ ": [1, true, null, " +:+ dquote +:+ "x\\y" +:+ dquote +:+ "]}".
Proof. split_and?; vm_compute; reflexivity. Qed.

(** ** The diff of two capture sequences *)

Lemma index_by_hash_snoc (l : list jval) (x : jval) :
  index_by_hash (l ++ [x]) = <[rho x := x]> (index_by_hash l).
Proof. unfold index_by_hash. by rewrite foldl_app. Qed.

(** The keys of the index are the hashes of the records. *)
Lemma index_by_hash_dom (l : list jval) (k : string) :
  k ∈ dom (index_by_hash l) ↔ k ∈ rho <$> l.
Proof.
  induction l as [|x l IH] using rev_ind.
  - unfold index_by_hash. simpl. by rewrite dom_empty, elem_of_empty, elem_of_nil.
  - rewrite index_by_hash_snoc, dom_insert, fmap_app, elem_of_union,
      elem_of_singleton, elem_of_app, IH. simpl.
    rewrite list_elem_of_singleton. tauto.
Qed.

(** A key of the index is bound to a record of the sequence that has this
    hash. *)
Lemma index_by_hash_lookup (l : list jval) (k : string) (x : jval) :
  index_by_hash l !! k = Some x → x ∈ l ∧ rho x = k.
Proof.
  induction l as [|y l IH] using rev_ind; [done|].
  rewrite index_by_hash_snoc, elem_of_app, list_elem_of_singleton.
  destruct (decide (rho y = k)) as [<-|Hne].
  - rewrite lookup_insert_eq. intros [= <-]. auto.
  - rewrite lookup_insert_ne by done. intros [??]%IH. auto.
Qed.

(** Without collisions, each record is the one bound to its hash. *)
Lemma index_by_hash_lookup_mem (l : list jval) (x : jval) :
  collision_free l → x ∈ l → index_by_hash l !! rho x = Some x.
Proof.
  intros Hfree Hx.
  assert (rho x ∈ dom (index_by_hash l)) as [y Hy]%elem_of_dom.
  { apply index_by_hash_dom. set_solver. }
  rewrite Hy. f_equal.
  destruct (index_by_hash_lookup _ _ _ Hy) as [Hyl Hrho]. by apply Hfree.
Qed.

(** The records listed for the keys of [m1] that are no keys of [m2]. *)
Lemma elem_of_listed_difference (m1 m2 : gmap string jval) (x : jval) :
  x ∈ (λ k, m1 !!! k) <$> elements (dom m1 ∖ dom m2)
  ↔ ∃ k, m1 !! k = Some x ∧ k ∉ dom m2.
Proof.
  rewrite list_elem_of_fmap. split.
  - intros (k & -> & [Hk Hnk]%elem_of_elements%elem_of_difference).
    exists k. split; [|done]. apply elem_of_dom in Hk as [y Hy].
    by rewrite (lookup_total_correct _ _ _ Hy).
  - intros (k & Hk & Hnk). exists k. split.
    + by rewrite (lookup_total_correct _ _ _ Hk).
    + apply elem_of_elements, elem_of_difference. split; [|done].
      apply elem_of_dom. by eexists.
Qed.

Lemma listed_difference_by_hash (a b : list jval) (x : jval) :
  collision_free b →
  x ∈ (λ k, index_by_hash b !!! k) <$> elements (dom (index_by_hash b) ∖ dom (index_by_hash a))
  ↔ x ∈ b ∧ rho x ∉ rho <$> a.
Proof.
  intros Hfree. rewrite elem_of_listed_difference. split.
  - intros (k & [Hx <-]%index_by_hash_lookup & Hnk). split; [done|].
    by rewrite <-index_by_hash_dom.
  - intros [Hx Hnx]. exists (rho x). split.
    + by apply index_by_hash_lookup_mem.
    + by rewrite index_by_hash_dom.
Qed.

Lemma collision_free_perm (l l' : list jval) :
  l ≡ₚ l' → collision_free l → collision_free l'.
Proof. intros Hp Hfree x y Hx Hy. apply Hfree; by rewrite Hp. Qed.

(** C1 (amended): for capture sequences in which no two different records
    have the same content hash, [added] holds exactly the records of [B]
    whose hash is no hash of [A] and [removed] exactly the records of [A]
    whose hash is no hash of [B]; reordering [A] or [B] then changes
    neither set. *)
Theorem diff_requests_by_hash (a b : list jval) :
  collision_free a → collision_free b →
  (∀ x, x ∈ added (diff_requests a b) ↔ x ∈ b ∧ rho x ∉ rho <$> a) ∧
  (∀ x, x ∈ removed (diff_requests a b) ↔ x ∈ a ∧ rho x ∉ rho <$> b) ∧
  (∀ a' b', a ≡ₚ a' → b ≡ₚ b' →
     ∀ x, (x ∈ added (diff_requests a' b') ↔ x ∈ added (diff_requests a b)) ∧
          (x ∈ removed (diff_requests a' b') ↔ x ∈ removed (diff_requests a b))).
Proof.
  intros Ha Hb. unfold diff_requests. simpl. split_and!.
  - intros x. by apply listed_difference_by_hash.
  - intros x. by apply listed_difference_by_hash.
  - intros a' b' Hpa Hpb x.
    rewrite !listed_difference_by_hash by eauto using collision_free_perm.
    by rewrite Hpa, Hpb.
Qed.

(** The content hashes of the sample records. *)
Lemma rho_samples :
  rho capture_login = "c2bfc07e91d5" ∧
  rho capture_track = "02dbf79b84b8" ∧
  rho capture_track_v2 = "02ee6fd59f20" ∧
  rho track_a = "e115afea09c8" ∧
  rho track_b = "e115afea09c8".
Proof. split_and!; vm_compute; reflexivity. Qed.

Lemma collision_free_pair (x y : jval) :
  rho x ≠ rho y → collision_free [x; y].
Proof.
  intros Hne u v Hu Hv Huv.
  apply elem_of_cons in Hu as [->|Hu%list_elem_of_singleton];
    apply elem_of_cons in Hv as [->|Hv%list_elem_of_singleton];
    subst; congruence.
Qed.

Lemma diff_requests_by_hash_witness :
  let a := [capture_login; capture_track] in
  let b := [capture_login; capture_track_v2] in
  (∀ x, x ∈ added (diff_requests a b) ↔ x ∈ b ∧ rho x ∉ rho <$> a) ∧
  (∀ x, x ∈ removed (diff_requests a b) ↔ x ∈ a ∧ rho x ∉ rho <$> b) ∧
  (∀ a' b', a ≡ₚ a' → b ≡ₚ b' →
     ∀ x, (x ∈ added (diff_requests a' b') ↔ x ∈ added (diff_requests a b)) ∧
          (x ∈ removed (diff_requests a' b') ↔ x ∈ removed (diff_requests a b))).
Proof.
  destruct rho_samples as (Hl & Ht & Ht2 & _).
  apply (diff_requests_by_hash [capture_login; capture_track]
           [capture_login; capture_track_v2]).
  - apply collision_free_pair. rewrite Hl, Ht. discriminate.
  - apply collision_free_pair. rewrite Hl, Ht2. discriminate.
Defined.

(** The example of the specification: the changed request is listed on
    both sides, the unchanged one on none. *)
Example diff_requests_changed_track :
  diff_requests [capture_login; capture_track] [capture_login; capture_track_v2]
  = DiffResult [capture_track_v2] [capture_track].
Proof. split_and?; vm_compute; reflexivity. Qed.

Lemma track_a_ne_track_b : track_a ≠ track_b.
Proof.
  intros H.
  apply (f_equal (λ v, match v with JObj m => m !! "url" | _ => None end)) in H.
  vm_compute in H. discriminate H.
Qed.

(** C1 (counterexample): the two records [track_a] and [track_b] differ
    and have the same hash.  In [B = [track_a; track_b]] the later one
    takes the key of the earlier: [added] lists one record, not the two
    that the claim counts, and the record it lists changes when [B] is
    reordered. *)
Lemma diff_requests_collision :
  rho track_a = rho track_b ∧ track_a ≠ track_b ∧
  added (diff_requests [] [track_a; track_b]) = [track_b] ∧
  added (diff_requests [] [track_b; track_a]) = [track_a] ∧
  ¬ (∀ x, x ∈ added (diff_requests [] [track_a; track_b])
          ↔ x ∈ [track_a; track_b] ∧ rho x ∉ rho <$> []).
Proof.
  assert (added (diff_requests [] [track_a; track_b]) = [track_b]) as Hab
    by (vm_compute; reflexivity).
  split_and!.
  - destruct rho_samples as (_ & _ & _ & -> & ->). reflexivity.
  - exact track_a_ne_track_b.
  - exact Hab.
  - vm_compute. reflexivity.
  - intros Hclaim. rewrite Hab in Hclaim.
    destruct (Hclaim track_a) as [_ Hin].
    apply track_a_ne_track_b, list_elem_of_singleton, Hin.
    split; [apply elem_of_cons; by left | apply not_elem_of_nil].
Qed.

(** C8: what [diff(A, B)] lists as added is what [diff(B, A)] lists as
    removed, and the other way round: the same records, each as many
    times. *)
Theorem diff_requests_symmetry (a b : list jval) :
  added (diff_requests a b) ≡ₚ removed (diff_requests b a) ∧
  removed (diff_requests a b) ≡ₚ added (diff_requests b a).
Proof. done. Qed.

(** As sets of records. *)
Lemma diff_requests_swap_sets (a b : list jval) (x : jval) :
  (x ∈ added (diff_requests a b) ↔ x ∈ removed (diff_requests b a)) ∧
  (x ∈ removed (diff_requests a b) ↔ x ∈ added (diff_requests b a)).
Proof. done. Qed.

(** X18: The diff of a sequence with itself is empty. *)
Lemma diff_requests_self (a : list jval) :
  diff_requests a a = DiffResult [] [].
Proof. unfold diff_requests. by rewrite difference_diag_L, elements_empty. Qed.

(** ** The session runner *)

Lemma bind_call_returns {A} (o : ext_call → option exn) (c : ext_call)
    (k : () → M A) (tr : list event) :
  o c = None → (call o c ≫= k) tr = k () (tr ++ [Called c]).
Proof. unfold mbind, M_bind, call. by intros ->. Qed.

Lemma bind_emit {A} (ev : event) (k : () → M A) (tr : list event) :
  (emit ev ≫= k) tr = k () (tr ++ [ev]).
Proof. done. Qed.

(** The [try] block with its handler never lets an [Exception] out, and
    only adds events to the trace. *)
Lemma navigation_block_trace (e : gmap string string) (o : ext_call → option exn)
    (tr : list event) :
  ∃ nav,
    (try_except
       (_ ← emit (Logged LogNavigating);
        _ ← call o Goto;
        if env_truthy e "WAIT_FOR_SELECTOR" then call o WaitForSelector else mret ())
       (λ x, emit (Logged LogNavigationError)) tr).1 = tr ++ nav.
Proof.
  unfold try_except, mbind, M_bind, emit, call, mret, M_ret.
  destruct (o Goto) as [[]|]; simpl.
  - by eexists [_; _; _]; rewrite <-!app_assoc.
  - by eexists [_; _]; rewrite <-!app_assoc.
  - destruct (env_truthy e "WAIT_FOR_SELECTOR"); simpl.
    + destruct (o WaitForSelector) as [[]|]; simpl.
      * by eexists [_; _; _; _]; rewrite <-!app_assoc.
      * by eexists [_; _; _]; rewrite <-!app_assoc.
      * by eexists [_; _; _]; rewrite <-!app_assoc.
    + by eexists [_; _]; rewrite <-!app_assoc.
Qed.

(** When the calls around the navigation return normally, the trace is:
    the setup, what the navigation did, the whole [finally] block; and
    the function returns the buffer. *)
Lemma run_account_trace (e : gmap string string) (o : ext_call → option exn)
    (captured : list jval) :
  session_ok o →
  ∃ nav,
    run_account e o captured []
    = ((Called <$> setup_calls) ++ nav ++ finalize_trace e, Returned captured).
Proof.
  intros Hok. unfold session_ok in Hok. simpl in Hok.
  repeat (apply Forall_cons in Hok as [? Hok]).
  unfold run_account, finally_return.
  rewrite !bind_call_returns by done.
  match goal with
  | |- context [try_except ?body ?handler ?tr] =>
      destruct (navigation_block_trace e o tr) as [nav Hnav]
  end.
  rewrite Hnav. exists nav. unfold finalize_trace.
  destruct (on e "EXPORT_STORAGE").
  - unfold mbind at 1, M_bind at 1.
    rewrite bind_call_returns by done. unfold emit at 1.
    rewrite !bind_call_returns, bind_emit by done.
    unfold mret, M_ret. simpl. by rewrite <-!app_assoc.
  - unfold mbind at 1, M_bind at 1. unfold mret at 1, M_ret at 1.
    rewrite !bind_call_returns, bind_emit by done.
    unfold mret, M_ret. simpl. by rewrite <-!app_assoc.
Qed.


Lemma oracle_timeout_ok : session_ok oracle_timeout.
Proof. unfold session_ok. simpl. repeat constructor. Qed.

Lemma oracle_cancelled_ok : session_ok oracle_cancelled.
Proof. unfold session_ok. simpl. repeat constructor. Qed.

Lemma oracle_clean_ok : session_ok oracle_clean.
Proof. unfold session_ok. simpl. repeat constructor. Qed.


(** The traces of a clean run, of a run whose navigation times out and of
    a run whose readiness wait is cancelled. *)
Example run_account_sample_traces :
  (run_account env_wait_export oracle_clean [] []).1
  = (Called <$> setup_calls)
    ++ [Logged LogNavigating; Called Goto; Called WaitForSelector]
    ++ finalize_trace env_wait_export ∧
  (run_account env_wait_export oracle_timeout [] []).1
  = (Called <$> setup_calls)
    ++ [Logged LogNavigating; Called Goto; Logged LogNavigationError]
    ++ finalize_trace env_wait_export ∧
  (run_account env_wait_export oracle_cancelled [] []).1
  = (Called <$> setup_calls)
    ++ [Logged LogNavigating; Called Goto; Called WaitForSelector]
    ++ finalize_trace env_wait_export.
Proof. split_and!; vm_compute; reflexivity. Qed.

(** When the dump of the requests raises, the exception leaves the
    function at once: the rest of the [finally] block is skipped. *)
Example run_account_disk_full :
  run_account ∅ oracle_disk_full [capture_login] []
  = ((Called <$> setup_calls) ++ [Logged LogNavigating; Called Goto; Called DumpRequests],
     Raised (ExException "No space left on device")).
Proof. vm_compute. reflexivity. Qed.


(** ** The orchestrator: lists of tasks *)

Lemma running_count_insert (l : list phase) (i : nat) (p q : phase) :
  l !! i = Some p →
  length (filter (λ p, is_running p = true) (<[i:=q]> l))
  + (if is_running p then 1 else 0)
  = length (filter (λ p, is_running p = true) l)
    + (if is_running q then 1 else 0).
Proof.
  revert i. induction l as [|a l IH]; intros i Hi; [done|].
  destruct i as [|i]; simpl in *.
  - injection Hi as ->. rewrite !filter_cons.
    destruct (decide (is_running q = true)) as [->|Hq%not_true_is_false],
             (decide (is_running p = true)) as [->|Hp%not_true_is_false];
      rewrite ?Hq, ?Hp; simpl; lia.
  - specialize (IH i Hi). rewrite !filter_cons.
    destruct (decide (is_running a = true)); simpl; lia.
Qed.

Lemma running_count_finished (l : list phase) :
  Forall (λ p, is_running p = false) l →
  length (filter (λ p, is_running p = true) l) = 0.
Proof.
  induction 1 as [|p l Hp _ IH]; [done|].
  rewrite filter_cons. destruct (decide (is_running p = true)); [congruence|done].
Qed.

Lemma weight_insert (sessions : list session) (l : list phase) (i : nat)
    (ss : session) (p q : phase) :
  sessions !! i = Some ss → l !! i = Some p →
  sum_list (zip_with phase_weight sessions (<[i:=q]> l)) + phase_weight ss p
  = sum_list (zip_with phase_weight sessions l) + phase_weight ss q.
Proof.
  revert l i. induction sessions as [|s0 sessions IH]; intros l i Hs Hl; [done|].
  destruct l as [|a l]; [done|]. destruct i as [|i]; simpl in *.
  - injection Hs as ->. injection Hl as ->. lia.
  - specialize (IH l i Hs Hl). lia.
Qed.

(** The tasks of a list: one is inside the semaphore, or none is and one
    waits, or all have ended. *)
Lemma phases_cases (l : list phase) :
  (∃ i n, l !! i = Some (Running n)) ∨
  (Forall (λ p, is_running p = false) l ∧ ∃ i, l !! i = Some Pending) ∨
  Forall (λ p, is_finished p = true) l.
Proof.
  induction l as [|p l IH]; [by right; right|].
  destruct p as [|n|r].
  - destruct IH as [(i & n & Hi)|[[Hnr (i & Hi)]|Hfin]].
    + left. by exists (S i), n.
    + right; left. split; [by constructor|]. by exists 0.
    + right; left. split; [|by exists 0].
      constructor; [done|]. eapply Forall_impl; [exact Hfin|].
      by intros [].
  - left. by exists 0, n.
  - destruct IH as [(i & n & Hi)|[[Hnr (i & Hi)]|Hfin]].
    + left. by exists (S i), n.
    + right; left. split; [by constructor|]. by exists (S i).
    + right; right. by constructor.
Qed.

Lemma collect_lookup (l : list phase) (rs : list (list jval)) :
  collect l = Some rs →
  length rs = length l ∧
  ∀ i p, l !! i = Some p → ∃ r, p = Finished (Returned r) ∧ rs !! i = Some r.
Proof.
  revert rs. induction l as [|p l IH]; intros rs; simpl.
  - intros [= <-]. by split.
  - destruct p as [| |[r|]]; try done.
    destruct (collect l) as [rs'|]; [|done]. simpl. intros [= <-].
    destruct (IH rs' eq_refl) as [Hlen Hl]. split; [simpl; by rewrite Hlen|].
    intros [|i] p; simpl; [intros [= <-]; by exists r|apply Hl].
Qed.

Lemma collect_total (l : list phase) :
  Forall (λ p, ∃ r, p = Finished (Returned r)) l → is_Some (collect l).
Proof.
  induction 1 as [|p l [r ->] _ [rs IH]]; simpl; [done|].
  rewrite IH. by eexists.
Qed.

(** ** The orchestrator: the invariant *)

Section orchestrator_facts.
Variable e : gmap string string.
Variable sessions : list session.
Variable capacity : nat.

(** A task that has not ended moves from [p] to [q]. *)
Lemma orch_inv_update (s : orch) (i : nat) (p q : phase) (v : nat)
    (g : option (outcome (list (list jval)))) :
  orch_inv e sessions capacity s →
  phases s !! i = Some p →
  is_finished p = false →
  v + (if is_running q then 1 else 0) = sem_value s + (if is_running p then 1 else 0) →
  (∀ r, q = Finished r → ∃ ss, sessions !! i = Some ss ∧ r = session_outcome e ss) →
  (g = None → gathered s = None ∧ ∀ x, q ≠ Finished (Raised x)) →
  (∀ x, g = Some (Raised x) → gathered s = Some (Raised x) ∨ q = Finished (Raised x)) →
  (∀ rs, g = Some (Returned rs) → gathered s = Some (Returned rs)) →
  orch_inv e sessions capacity (Orch v (<[i:=q]> (phases s)) g).
Proof.
  intros (Hlen & Hsem & Hfin & Hnone & Hraised & Hret) Hp Hpf Hv Hq Hg1 Hg2 Hg3.
  assert (i < length (phases s)) as Hi by by eapply lookup_lt_Some.
  unfold orch_inv. simpl. split_and!.
  - by rewrite length_insert.
  - pose proof (running_count_insert (phases s) i p q Hp) as Hcount.
    unfold active in *. simpl. lia.
  - intros j r [(<- & -> & _)|[_ Hj]]%list_lookup_insert_Some; [by apply Hq|].
    by eapply Hfin.
  - intros Hgn j x [(<- & -> & _)|[_ Hj]]%list_lookup_insert_Some.
    + by eapply (proj2 (Hg1 Hgn)).
    + by eapply (Hnone (proj1 (Hg1 Hgn))).
  - intros x [Hgx| ->]%Hg2.
    + destruct (Hraised x Hgx) as [j Hj]. exists j.
      rewrite list_lookup_insert_ne; [done|]. intros <-.
      rewrite Hp in Hj. injection Hj as ->. discriminate Hpf.
    + exists i. by apply list_lookup_insert_eq.
  - intros rs Hrs%Hg3%Hret.
    destruct (proj2 (collect_lookup _ _ Hrs) i p Hp) as (r & -> & _).
    discriminate Hpf.
Qed.

Lemma step_inv (a : action) (s s' : orch) :
  orch_inv e sessions capacity s →
  step e sessions a s = Some s' →
  orch_inv e sessions capacity s'.
Proof.
  intros Hinv. destruct a as [i|i|i|]; simpl.
  - destruct (phases s !! i) as [[| |]|] eqn:Hp; try done.
    destruct (sessions !! i) as [ss|] eqn:Hss; [|done].
    destruct (sem_value s) as [|v] eqn:Hv; [done|]. intros [= <-].
    eapply orch_inv_update; eauto; simpl; try done; lia.
  - destruct (phases s !! i) as [[|[|n]|]|] eqn:Hp; try done. intros [= <-].
    eapply orch_inv_update; eauto; simpl; try done; lia.
  - destruct (phases s !! i) as [[|[|n]|]|] eqn:Hp; try done.
    destruct (sessions !! i) as [ss|] eqn:Hss; [|done]. intros [= <-].
    eapply orch_inv_update; eauto; simpl; try done.
    + intros r [= <-]. by exists ss.
    + by destruct (gathered s), (session_outcome e ss).
    + intros x. destruct (gathered s), (session_outcome e ss); intros H;
        try done; [by left | by left | right; congruence].
    + intros rs. by destruct (gathered s), (session_outcome e ss).
  - destruct (gathered s) eqn:Hg; [done|].
    destruct (collect (phases s)) as [rs|] eqn:Hc; [|done]. intros [= <-].
    destruct Hinv as (Hlen & Hsem & Hfin & Hnone & Hraised & Hret).
    unfold orch_inv. simpl. split_and!; try done.
    intros rs' [= <-]. done.
Qed.

Lemma init_inv (c : Z) (s0 : orch) :
  run_multiple_accounts sessions c = Some s0 →
  capacity = Z.to_nat c →
  orch_inv e sessions capacity s0.
Proof.
  unfold run_multiple_accounts. destruct (c <? 0)%Z; [done|].
  intros [= <-] ->. unfold orch_inv, active. simpl. split_and!; try done.
  - by rewrite length_replicate.
  - rewrite running_count_finished; [lia|]. by apply Forall_replicate.
  - intros i r [? _]%lookup_replicate. done.
  - intros _ i x [? _]%lookup_replicate. done.
Qed.

Lemma exec_inv (sched : list action) (s s' : orch) :
  orch_inv e sessions capacity s →
  exec e sessions sched s = Some s' →
  orch_inv e sessions capacity s'.
Proof.
  revert s. induction sched as [|a sched IH]; intros s Hinv; simpl.
  - by intros [= <-].
  - destruct (step e sessions a s) as [s1|] eqn:Hstep; [|done]. simpl.
    apply IH. by eapply step_inv.
Qed.

(** Each step uses up some of the work left. *)
Lemma step_decreases (a : action) (s s' : orch) :
  orch_inv e sessions capacity s →
  step e sessions a s = Some s' →
  work_left sessions s' < work_left sessions s.
Proof.
  intros (Hlen & _) Hstep. unfold work_left.
  destruct a as [i|i|i|]; simpl in Hstep.
  - destruct (phases s !! i) as [[| |]|] eqn:Hp; try done.
    destruct (sessions !! i) as [ss|] eqn:Hss; [|done].
    destruct (sem_value s); [done|]. injection Hstep as <-. simpl.
    pose proof (weight_insert sessions _ i ss _ (Running (s_awaits ss)) Hss Hp).
    simpl in *. lia.
  - destruct (phases s !! i) as [[|[|n]|]|] eqn:Hp; try done.
    injection Hstep as <-. simpl.
    destruct (lookup_lt_is_Some_2 sessions i) as [ss Hss].
    { rewrite <-Hlen. by eapply lookup_lt_Some. }
    pose proof (weight_insert sessions _ i ss _ (Running n) Hss Hp).
    simpl in *. lia.
  - destruct (phases s !! i) as [[|[|n]|]|] eqn:Hp; try done.
    destruct (sessions !! i) as [ss|] eqn:Hss; [|done].
    injection Hstep as <-. simpl.
    pose proof (weight_insert sessions _ i ss _
                  (Finished (session_outcome e ss)) Hss Hp).
    simpl in *.
    destruct (gathered s) as [[]|], (session_outcome e ss); lia.
  - destruct (gathered s) eqn:Hg; [done|].
    destruct (collect (phases s)); [|done]. injection Hstep as <-. simpl. lia.
Qed.

(** A run is no longer than the work there was at its start. *)
Lemma exec_bounded (sched : list action) (s s' : orch) :
  orch_inv e sessions capacity s →
  exec e sessions sched s = Some s' →
  length sched + work_left sessions s' ≤ work_left sessions s.
Proof.
  revert s. induction sched as [|a sched IH]; intros s Hinv; simpl.
  - intros [= <-]. lia.
  - destruct (step e sessions a s) as [s1|] eqn:Hstep; [|done]. simpl.
    intros Hexec. pose proof (step_decreases _ _ _ Hinv Hstep).
    pose proof (IH s1 (step_inv _ _ _ Hinv Hstep) Hexec). lia.
Qed.

(** A task inside the semaphore can take its next step, whatever the
    other tasks are doing. *)
Lemma running_task_enabled (s : orch) (i n : nat) :
  orch_inv e sessions capacity s →
  phases s !! i = Some (Running n) →
  ∃ s', step e sessions (Resume i) s = Some s' ∨ step e sessions (Complete i) s = Some s'.
Proof.
  intros (Hlen & _) Hp. simpl. rewrite Hp.
  destruct n as [|n]; [|by eexists; left].
  destruct (lookup_lt_is_Some_2 sessions i) as [ss ->].
  { rewrite <-Hlen. by eapply lookup_lt_Some. }
  eexists. by right.
Qed.

(** As long as [gather] has not come back, some step can be taken. *)
Lemma step_enabled (s : orch) :
  orch_inv e sessions capacity s →
  0 < capacity →
  gathered s = None →
  ∃ a s', step e sessions a s = Some s'.
Proof.
  intros Hinv Hcap Hg.
  destruct (phases_cases (phases s)) as [(i & n & Hi)|[[Hnr (i & Hi)]|Hfin]].
  - destruct (running_task_enabled s i n Hinv Hi) as [s' [H|H]]; eauto.
  - destruct Hinv as (Hlen & Hsem & _).
    destruct (lookup_lt_is_Some_2 sessions i) as [ss Hss].
    { rewrite <-Hlen. by eapply lookup_lt_Some. }
    unfold active in Hsem. rewrite running_count_finished in Hsem by done.
    exists (Acquire i). simpl. rewrite Hi, Hss.
    destruct (sem_value s); [lia|]. by eexists.
  - destruct Hinv as (_ & _ & _ & Hnone & _).
    destruct (collect_total (phases s)) as [rs Hrs].
    { apply Forall_lookup. intros i p Hp.
      pose proof (proj1 (Forall_lookup _ _) Hfin i p Hp) as Hpf.
      destruct p as [| |[r|x]]; try done; [by exists r|].
      by destruct (Hnone Hg i x). }
    exists Gather. simpl. rewrite Hg, Hrs. by eexists.
Qed.

(** From any state the loop can be run until [gather] comes back. *)
Lemma exec_reaches_gather (s : orch) :
  orch_inv e sessions capacity s →
  0 < capacity →
  ∃ sched s', exec e sessions sched s = Some s' ∧ is_Some (gathered s').
Proof.
  intros Hinv Hcap.
  remember (work_left sessions s) as w eqn:Hw.
  revert s Hinv Hw. induction w as [w IH] using lt_wf_ind. intros s Hinv ->.
  destruct (gathered s) as [g|] eqn:Hg.
  - exists [], s. simpl. by rewrite Hg.
  - destruct (step_enabled s Hinv Hcap Hg) as (a & s1 & Hstep).
    destruct (IH _ (step_decreases _ _ _ Hinv Hstep) s1
                (step_inv _ _ _ Hinv Hstep) eq_refl) as (sched & s' & Hexec & Hs').
    exists (a :: sched), s'. simpl. by rewrite Hstep.
Qed.

(** When the calls around the navigation of every session return
    normally, what [gather] gives is the list of the captured requests of
    the sessions, in their order. *)
Lemma gathered_results (s : orch) (out : outcome (list (list jval))) :
  orch_inv e sessions capacity s →
  Forall (λ ss, session_ok (s_oracle ss)) sessions →
  gathered s = Some out →
  out = Returned (s_captured <$> sessions) ∧
  Forall (λ p, is_finished p = true) (phases s).
Proof.
  intros (Hlen & _ & Hfin & _ & Hraised & Hret) Hok Hg.
  assert (∀ i ss, sessions !! i = Some ss →
            session_outcome e ss = Returned (s_captured ss)) as Hout.
  { intros i ss Hss. unfold session_outcome.
    destruct (run_account_trace e (s_oracle ss) (s_captured ss)) as [nav ->]; [|done].
    by eapply (proj1 (Forall_lookup _ _) Hok). }
  destruct out as [rs|x].
  - destruct (collect_lookup _ _ (Hret _ Hg)) as [Hrl Hrs]. split.
    + f_equal. apply list_eq. intros i. rewrite list_lookup_fmap.
      destruct (phases s !! i) as [p|] eqn:Hp.
      * destruct (Hrs i p Hp) as (r & -> & ->).
        destruct (Hfin i _ Hp) as (ss & Hss & Hr).
        rewrite Hss. simpl. rewrite (Hout i ss Hss) in Hr. by injection Hr as ->.
      * apply lookup_ge_None in Hp.
        rewrite (proj2 (lookup_ge_None rs i)) by lia.
        by rewrite (proj2 (lookup_ge_None sessions i)) by lia.
    + apply Forall_lookup. intros i p Hp. by destruct (Hrs i p Hp) as (r & -> & _).
  - destruct (Hraised x Hg) as [i Hi].
    destruct (Hfin i _ Hi) as (ss & Hss & Hr).
    rewrite (Hout i ss Hss) in Hr. discriminate Hr.
Qed.
End orchestrator_facts.

(** ** The orchestrator: results and bounded concurrency *)


Lemma sample_sessions_ok : Forall (λ ss, session_ok (s_oracle ss)) sample_sessions.
Proof.
  repeat constructor; simpl;
    first [apply oracle_clean_ok | apply oracle_timeout_ok | apply oracle_cancelled_ok].
Qed.


(** C9: in every state that a run of the event loop reaches, the tasks
    inside the region guarded by the semaphore are at most [concurrency],
    and each of them can take its next step whatever the others do. *)
Theorem semaphore_bounds_active_sessions (e : gmap string string)
    (sessions : list session) (c : Z) (s0 : orch) (sched : list action) (s : orch) :
  run_multiple_accounts sessions c = Some s0 →
  exec e sessions sched s0 = Some s →
  active s ≤ Z.to_nat c ∧
  ∀ i n, phases s !! i = Some (Running n) →
    ∃ s', step e sessions (Resume i) s = Some s' ∨
          step e sessions (Complete i) s = Some s'.
Proof.
  intros Hs0 Hexec.
  pose proof (init_inv e sessions (Z.to_nat c) c s0 Hs0 eq_refl) as Hinv0.
  pose proof (exec_inv _ _ _ _ _ _ Hinv0 Hexec) as Hinv.
  split.
  - destruct Hinv as (_ & Hsem & _). lia.
  - intros i n. by apply (running_task_enabled e sessions (Z.to_nat c)).
Qed.

Lemma semaphore_bounds_active_sessions_witness :
  active sample_state ≤ Z.to_nat 2 ∧
  ∀ i n, phases sample_state !! i = Some (Running n) →
    ∃ s', step env_wait_export sample_sessions (Resume i) sample_state = Some s' ∨
          step env_wait_export sample_sessions (Complete i) sample_state = Some s'.
Proof.
  apply (semaphore_bounds_active_sessions env_wait_export sample_sessions 2
           sample_start sample_schedule sample_state).
  - vm_compute. reflexivity.
  - vm_compute. reflexivity.
Defined.

(** With the semaphore at zero a third task is not let in, and it is let
    in once a task inside has ended. *)
Example semaphore_refuses_third :
  step env_wait_export sample_sessions (Acquire 1) sample_state = None ∧
  exec env_wait_export sample_sessions
    [Resume 2; Resume 2; Complete 2; Acquire 1] sample_state
  = Some (Orch 0 [Running 2; Running 1; Finished (Returned []); Pending] None).
Proof. split; vm_compute; reflexivity. Qed.

(** A task whose session raises makes [gather] raise at once, while the
    other tasks have not ended: no list of results is returned. *)
Example gather_raises_with_session :
  exec ∅ [Session oracle_clean [] 0; Session oracle_disk_full [] 0]
    [Acquire 0; Acquire 1; Complete 1]
    (Orch 2 [Pending; Pending] None)
  = Some (Orch 1 [Running 0; Finished (Raised (ExException "No space left on device"))]
            (Some (Raised (ExException "No space left on device")))).
Proof. vm_compute. reflexivity. Qed.

(* ===================================================================== *)
(** * Part III: further properties of the code                            *)
(* ===================================================================== *)

(** ** Strings, continued *)

Lemma str_app_cons (x : ascii) (a b : string) :
  String x a +:+ b = String x (a +:+ b).
Proof. done. Qed.

Lemma str_app_assoc (a b c : string) : (a +:+ b) +:+ c = a +:+ (b +:+ c).
Proof. induction a as [|x a IH]; [done|]. by rewrite !str_app_cons, IH. Qed.

Lemma str_length_app (a b : string) :
  String.length (a +:+ b) = String.length a + String.length b.
Proof. induction a as [|x a IH]; [done|]. rewrite str_app_cons. simpl. by rewrite IH. Qed.

Lemma str_app_cancel_r (a b d : string) : a +:+ d = b +:+ d → a = b.
Proof.
  revert b. induction a as [|x a IH]; intros [|y b] H.
  - done.
  - change ("" +:+ d) with d in H. rewrite str_app_cons in H.
    apply (f_equal String.length) in H. simpl in H. rewrite str_length_app in H. lia.
  - change ("" +:+ d) with d in H. rewrite str_app_cons in H.
    apply (f_equal String.length) in H. simpl in H. rewrite str_length_app in H. lia.
  - rewrite !str_app_cons in H. injection H as -> H. by rewrite (IH b H).
Qed.

Lemma lower_char_idem (c : ascii) : lower_char (lower_char c) = lower_char c.
Proof. destruct c as [[] [] [] [] [] [] [] []]; vm_compute; reflexivity. Qed.

Lemma lower_char_dot (c : ascii) : char_in (lower_char c) "." = char_in c ".".
Proof. destruct c as [[] [] [] [] [] [] [] []]; vm_compute; reflexivity. Qed.

Lemma lower_idem (s : string) : lower (lower s) = lower s.
Proof. induction s as [|c s IH]; simpl; by rewrite ?lower_char_idem, ?IH. Qed.

Lemma lower_lstrip_dot (s : string) : lstrip "." (lower s) = lower (lstrip "." s).
Proof.
  induction s as [|c s IH]; [done|].
  cbn [lower lstrip]. rewrite lower_char_dot.
  by destruct (char_in c ".").
Qed.

Lemma lower_empty (s : string) : lower s = "" ↔ s = "".
Proof. by destruct s. Qed.

(** ** Cookie rules, continued *)

(** X1: The domain rule does not look at the case of the letters: two cookie
    domains that are equal up to case, and two hosts that are, get the same
    answer. *)
Theorem domain_match_ignores_case (cd cd' host host' : string) :
  lower cd = lower cd' → lower host = lower host' →
  _domain_match (JStr cd) (JStr host) = _domain_match (JStr cd') (JStr host').
Proof.
  intros Hcd Hhost. unfold _domain_match. simpl.
  rewrite <-!lower_lstrip_dot, Hcd, Hhost.
  destruct (String.eqb_spec cd "") as [->|Hne], (String.eqb_spec cd' "") as [->|Hne'];
    simpl; try done.
  - exfalso. apply Hne', lower_empty. by rewrite <-Hcd.
  - exfalso. apply Hne, lower_empty. by rewrite Hcd.
Qed.

Lemma domain_match_ignores_case_witness :
  _domain_match (JStr ".Example.COM") (JStr "WWW.Example.com")
  = _domain_match (JStr ".example.com") (JStr "www.example.com").
Proof.
  apply domain_match_ignores_case; vm_compute; reflexivity.
Defined.

(** X2: Where the host ends with the cookie domain (dots stripped, both
    lowered), the rule accepts it exactly when what stands before the
    domain is nothing or ends with a dot: "notexample.com" is no match for
    "example.com", whatever the letters before it are. *)
Theorem domain_match_label_boundary (cd host pre : string) :
  cd ≠ "" →
  lower host = pre +:+ lower (lstrip "." cd) →
  _domain_match (JStr cd) (JStr host) = Some true
  ↔ pre = "" ∨ ∃ pre', pre = pre' +:+ ".".
Proof.
  intros Hcd Hhost.
  destruct (domain_match_code cd host Hcd) as (b & -> & Hb).
  split.
  - intros [= ->]. destruct (proj1 Hb eq_refl) as [Heq|[pre' Hpre']].
    + left. rewrite Hhost in Heq.
      by apply (str_app_cancel_r pre "" (lower (lstrip "." cd))).
    + right. exists pre'. rewrite Hhost, <-str_app_assoc in Hpre'.
      by apply str_app_cancel_r in Hpre'.
  - intros Hpre. f_equal. apply Hb. destruct Hpre as [->|[pre' ->]].
    + by left.
    + right. exists pre'. by rewrite Hhost, str_app_assoc.
Qed.

Lemma domain_match_label_boundary_witness :
  _domain_match (JStr "example.com") (JStr "notexample.com") = Some true
  ↔ "not" = "" ∨ ∃ pre', "not" = pre' +:+ ".".
Proof.
  apply (domain_match_label_boundary "example.com" "notexample.com" "not").
  - discriminate.
  - vm_compute. reflexivity.
Defined.

(** X3: A request path that matches keeps matching when it is made longer:
    the rule only reads the beginning of the request path. *)
Theorem path_match_extends (cp req more : string) :
  _path_match (JStr cp) (JStr req) = Some true →
  _path_match (JStr cp) (JStr (req +:+ more)) = Some true.
Proof.
  destruct (path_match_code cp req) as (b & -> & Hb).
  destruct (path_match_code cp (req +:+ more)) as (b' & -> & Hb').
  intros [= ->]. f_equal. apply Hb'.
  destruct (proj1 Hb eq_refl) as [->|[r ->]]; [by left|].
  right. exists (r +:+ more). by rewrite str_app_assoc.
Qed.

Lemma path_match_extends_witness :
  _path_match (JStr "api") (JStr ("/api" +:+ "/v2/x")) = Some true.
Proof.
  apply (path_match_extends "api" "/api" "/v2/x"). vm_compute. reflexivity.
Defined.

(** ** Cookie loading, continued *)

Section cookie_loading_more.
Context {Driver : Type}.
Variable drv_get : string → Driver → option Driver.
Variable drv_refresh : Driver → option Driver.
Variable drv_add_cookie : gmap string jval → Driver → Driver * bool.

(** One turn of the loop, by what the three checks decide. *)
Lemma cookie_loop_cons p req_path c rest drv a s :
  cookie_loop drv_add_cookie p req_path (c :: rest) drv a s =
  match cookie_check p req_path c with
  | None => None
  | Some false => cookie_loop drv_add_cookie p req_path rest drv a (S s)
  | Some true =>
      let '(drv', ok) := drv_add_cookie (delete "sameSite" c) drv in
      if ok then cookie_loop drv_add_cookie p req_path rest drv' (S a) s
      else cookie_loop drv_add_cookie p req_path rest drv' a (S s)
  end.
Proof.
  unfold cookie_check. simpl.
  destruct (_domain_match _ _) as [[]|]; simpl; [|done|done].
  destruct (_path_match _ _) as [[]|]; simpl; [|done|done].
  by destruct (truthy _ && _).
Qed.

(** X4: The driver is handed the records that pass the three checks, in the
    order of the file, each without its [sameSite] key, and nothing else:
    its final state is the one these calls of [add_cookie] lead to, and no
    more cookies are counted as added than were handed over. *)
Theorem cookie_loop_hands_over p req_path cookies drv a s drv' a' s' :
  cookie_loop drv_add_cookie p req_path cookies drv a s = Some (drv', a', s') →
  drv' = foldl (λ d c, (drv_add_cookie c d).1) drv (offered p req_path cookies) ∧
  a' ≤ a + length (offered p req_path cookies) ∧
  Forall (λ c, c !! "sameSite" = None) (offered p req_path cookies).
Proof.
  intros Hloop. split_and!.
  - revert drv a s Hloop. induction cookies as [|c rest IH]; intros drv a s.
    + by intros [= <- _ _].
    + rewrite cookie_loop_cons. unfold offered. rewrite filter_cons.
      destruct (cookie_check p req_path c) as [[]|] eqn:Hc; [| |done].
      * rewrite decide_True by done. simpl.
        destruct (drv_add_cookie _ drv) as [d1 []]; apply IH.
      * rewrite decide_False by done. apply IH.
  - unfold offered. rewrite length_fmap.
    revert drv a s Hloop. induction cookies as [|c rest IH]; intros drv a s.
    + intros [= _ <- _]. lia.
    + rewrite cookie_loop_cons, filter_cons.
      destruct (cookie_check p req_path c) as [[]|] eqn:Hc; [| |done].
      * rewrite decide_True by done. simpl.
        destruct (drv_add_cookie _ drv) as [d1 []]; intros H%IH; lia.
      * rewrite decide_False by done. intros H%IH. lia.
  - unfold offered. apply Forall_fmap, Forall_forall. intros c _. simpl.
    apply lookup_delete_eq.
Qed.

(** X5: On a target that is not [https], records marked secure never reach
    the driver: a file of such records leaves the driver as it was and all
    of them are counted as skipped. *)
Theorem secure_cookies_skipped_without_https p req_path cookies drv a s drv' a' s' :
  scheme p ≠ "https" →
  Forall (λ c, truthy (dict_get c "secure") = true) cookies →
  cookie_loop drv_add_cookie p req_path cookies drv a s = Some (drv', a', s') →
  drv' = drv ∧ a' = a ∧ s' = s + length cookies.
Proof.
  intros Hscheme Hsec. revert s.
  induction Hsec as [|c rest Hc _ IH]; intros s.
  - intros [= <- <- <-]. split_and!; [done|done|simpl; lia].
  - rewrite cookie_loop_cons.
    assert (cookie_check p req_path c ≠ Some true) as Hcheck.
    { unfold cookie_check. rewrite (dict_get_delete_ne c "sameSite" "secure") by done.
      rewrite Hc. destruct (String.eqb_spec (scheme p) "https"); [done|]. simpl.
      destruct (_domain_match _ _) as [[]|]; simpl; [|done|done].
      by destruct (_path_match _ _) as [[]|]. }
    destruct (cookie_check p req_path c) as [[]|]; [done| |done].
    intros (-> & -> & ->)%IH. split_and!; [done|done|simpl; lia].
Qed.

(** X6: One record whose domain is neither a string nor a false value (a
    number, a list) makes the whole call raise: the loop has no handler
    around the checks, so nothing is reported for the file. *)
Theorem load_cookies_raises_on_bad_domain drv cookies c p :
  c ∈ cookies →
  truthy (dict_get c "domain") = true →
  as_str (dict_get c "domain") = None →
  load_cookies_domain_safe drv_get drv_refresh drv_add_cookie drv (Some cookies) p = None.
Proof.
  intros Hin Ht Hs.
  assert (cookie_check p (if String.eqb (path p) "" then "/" else path p) c = None) as Hc.
  { unfold cookie_check, _domain_match.
    rewrite (dict_get_delete_ne c "sameSite" "domain") by done. by rewrite Ht, Hs. }
  assert (∀ d a s, cookie_loop drv_add_cookie p
            (if String.eqb (path p) "" then "/" else path p) cookies d a s = None) as Hloop.
  { clear drv. induction Hin as [c rest|c c0 rest _ IH]; intros d a s;
      rewrite cookie_loop_cons.
    - by rewrite Hc.
    - destruct (cookie_check _ _ c0) as [[]|]; [|by apply IH|done].
      destruct (drv_add_cookie _ d) as [d1 []]; by apply IH. }
  unfold load_cookies_domain_safe.
  destruct (drv_get _ drv) as [d1|]; simpl; [|done]. by rewrite Hloop.
Qed.
End cookie_loading_more.

Lemma cookie_loop_hands_over_witness :
  [delete "sameSite" (sample_cookies !!! 0%nat)]
  = foldl (λ d c, (jar_add_cookie c d).1) []
      (offered sample_target "/api/v2/x" sample_cookies) ∧
  1 ≤ 0 + length (offered sample_target "/api/v2/x" sample_cookies) ∧
  Forall (λ c, c !! "sameSite" = None) (offered sample_target "/api/v2/x" sample_cookies).
Proof.
  apply (cookie_loop_hands_over jar_add_cookie sample_target "/api/v2/x"
           sample_cookies [] 0 0 _ 1 3).
  vm_compute. reflexivity.
Defined.

Lemma secure_cookies_skipped_without_https_witness :
  ([] : list (gmap string jval)) = [] ∧ 0 = 0 ∧ 1 = 0 + length [sample_cookies !!! 2%nat].
Proof.
  apply (secure_cookies_skipped_without_https jar_add_cookie sample_target "/api/v2/x"
           [sample_cookies !!! 2%nat] [] 0 0 [] 0 1).
  - vm_compute. discriminate.
  - repeat constructor.
  - vm_compute. reflexivity.
Defined.

Lemma load_cookies_raises_on_bad_domain_witness :
  load_cookies_domain_safe (λ _ d, Some d) Some jar_add_cookie []
    (Some (sample_cookies ++ [{[ "name" := JStr "n"; "domain" := JNum 7 ]}]))
    sample_target = None.
Proof.
  apply (load_cookies_raises_on_bad_domain (λ _ d, Some d) Some jar_add_cookie []
           _ {[ "name" := JStr "n"; "domain" := JNum 7 ]}).
  - apply elem_of_app. right. apply list_elem_of_singleton. reflexivity.
  - vm_compute. reflexivity.
  - vm_compute. reflexivity.
Defined.

(** ** Fingerprint observation and overrides, continued *)

(** Without the flags, the calls of the page leave no mark. *)
Lemma page_activity_untouched_none (calls : list (surface * Z)) (w : window) :
  fp_used w = None → fp_used (page_activity calls w) = None.
Proof.
  revert w. induction calls as [|c calls IH]; intros w Hw; [done|].
  unfold page_activity in *. simpl. apply IH. unfold page_call. simpl.
  rewrite Hw. induction (touched _) as [|s l IHl]; simpl; [done|]. by rewrite IHl.
Qed.

(** During the observation window of the login flow every slot holds the
    probe of its surface around the function of the browser, and the
    flags exist: a call of the page sets the flag of the surface it calls,
    and no other. *)
Lemma page_activity_probed (s : surface) (calls : list (surface * Z)) (w : window)
    (u : usage) :
  (∀ s' arg, touched (invoke (slot s' w) arg) = [s']) →
  fp_used w = Some u →
  ∃ u', fp_used (page_activity calls w) = Some u' ∧
        flag s u' = flag s u || bool_decide (s ∈ calls.*1).
Proof.
  revert w u. induction calls as [|[s' arg] calls IH]; intros w u Hslots Hu.
  - exists u. split; [done|]. simpl. by destruct (flag s u).
  - unfold page_activity in *. simpl.
    destruct (IH (page_call w (s', arg)) (mark s' u)) as (u' & Hu' & Hflag).
    + intros s'' arg'. rewrite page_call_slot. apply Hslots.
    + unfold page_call. simpl. rewrite (Hslots s' arg). simpl. by rewrite Hu.
    + exists u'. split; [done|]. rewrite Hflag, flag_mark.
      destruct (decide (s = s')) as [->|Hne].
      * simpl. rewrite bool_decide_eq_true_2, orb_true_r; [done|].
        apply elem_of_cons. by left.
      * f_equal. apply bool_decide_ext. rewrite elem_of_cons.
        split; [by right | by intros [?|?]].
Qed.


(** X9: The probes only observe: with them in place, a call of a surface
    returns what it returned before, and canvas and samples are touched as
    often as before. *)
Theorem probes_are_transparent (e : gmap string string) (w : window)
    (s : surface) (arg : Z) :
  let before := invoke (slot s w) arg in
  let after := invoke (slot s (inject_fp_detection e w)) arg in
  ret after = ret before ∧
  alpha_writes after = alpha_writes before ∧
  sample_passes after = sample_passes before.
Proof.
  unfold inject_fp_detection, detect_script.
  destruct (on e "FP_DETECT"), (fp_used w); by destruct s.
Qed.




(** ** The fingerprint init script, continued *)

Section init_script_facts.
Variable py_int : string → option Z.

(** X12: Building the init script raises exactly when one of the two numeric
    settings is set to a text that [int] rejects. *)
Theorem fingerprint_init_script_raises (e : gmap string string) :
  fingerprint_init_script py_int e = None
  ↔ (env_truthy e "FAKE_HARDWARE_CONCURRENCY" = true ∧
     py_int (env_or e "FAKE_HARDWARE_CONCURRENCY" "") = None)
    ∨ (env_truthy e "FAKE_DEVICE_MEMORY" = true ∧
       py_int (env_or e "FAKE_DEVICE_MEMORY" "") = None).
Proof.
  unfold fingerprint_init_script.
  destruct (env_truthy e "FAKE_HARDWARE_CONCURRENCY");
    [destruct (py_int (env_or e "FAKE_HARDWARE_CONCURRENCY" ""))|];
    (destruct (env_truthy e "FAKE_DEVICE_MEMORY");
       [destruct (py_int (env_or e "FAKE_DEVICE_MEMORY" ""))|]);
    simpl; split; try done; try tauto; intros [[??]|[??]]; done.
Qed.


Lemma init_script_ends_with_detect (e : gmap string string) (frags : list fragment) :
  on e "FP_DETECT" = true →
  fingerprint_init_script py_int e = Some frags →
  ∃ pre, frags = pre ++ [FragDetect].
Proof.
  intros Hdetect. unfold fingerprint_init_script. rewrite Hdetect.
  destruct (env_truthy e "FAKE_HARDWARE_CONCURRENCY");
    [destruct (py_int (env_or e "FAKE_HARDWARE_CONCURRENCY" ""))|];
    (destruct (env_truthy e "FAKE_DEVICE_MEMORY");
       [destruct (py_int (env_or e "FAKE_DEVICE_MEMORY" ""))|]);
    simpl; try done; intros [= <-]; by eexists.
Qed.

Lemma flag_marked (s : surface) (l : list surface) (u : option usage) :
  is_Some u →
  from_option (flag s) false (foldr (λ s u, mark s <$> u) u (s :: l)) = true.
Proof.
  intros [u0 ->]. simpl.
  assert (is_Some (foldr (λ s u, mark s <$> u) (Some u0) l)) as [u1 ->].
  { induction l as [|x l [u1 IH]]; simpl; [done|]. rewrite IH. by eexists. }
  simpl. rewrite flag_mark. by rewrite decide_True.
Qed.

End init_script_facts.



(** ** The diff of two capture sequences, continued *)

(** X15: When several records of a sequence have the same hash, the index
    keeps the last of them. *)
Theorem index_by_hash_last_wins (l1 l2 : list jval) (x : jval) :
  Forall (λ y, rho y ≠ rho x) l2 →
  index_by_hash (l1 ++ x :: l2) !! rho x = Some x.
Proof.
  induction l2 as [|y l2 IH] using rev_ind; intros Hl2.
  - rewrite index_by_hash_snoc. apply lookup_insert_eq.
  - apply Forall_app in Hl2 as [Hl2 Hy]. apply Forall_cons in Hy as [Hy _].
    rewrite app_comm_cons, app_assoc, index_by_hash_snoc.
    rewrite lookup_insert_ne by done. by apply IH.
Qed.

Lemma index_by_hash_last_wins_witness :
  index_by_hash ([track_a] ++ track_b :: [capture_login]) !! rho track_b = Some track_b.
Proof.
  apply (index_by_hash_last_wins [track_a] [capture_login] track_b).
  destruct rho_samples as (Hl & _ & _ & _ & Hb).
  constructor; [|constructor]. rewrite Hl, Hb. discriminate.
Defined.

(** X16: What [diff_requests] lists, whatever the hashes do: each list holds
    records of the sequence it is taken from, no record twice, and no
    record is in both lists. *)
Theorem diff_requests_lists_apart (a b : list jval) :
  NoDup (added (diff_requests a b)) ∧
  NoDup (removed (diff_requests a b)) ∧
  (∀ x, x ∈ added (diff_requests a b) → x ∈ b) ∧
  (∀ x, x ∈ removed (diff_requests a b) → x ∈ a) ∧
  (∀ x, x ∈ added (diff_requests a b) → x ∉ removed (diff_requests a b)).
Proof.
  assert (∀ l1 l2 : list jval,
            NoDup ((λ k, index_by_hash l1 !!! k)
                     <$> elements (dom (index_by_hash l1) ∖ dom (index_by_hash l2)))) as Hnd.
  { intros l1 l2. apply NoDup_fmap_2_strong; [|apply NoDup_elements].
    intros k1 k2 [Hk1 _]%elem_of_elements%elem_of_difference
                 [Hk2 _]%elem_of_elements%elem_of_difference Heq.
    apply elem_of_dom in Hk1 as [x1 Hx1]. apply elem_of_dom in Hk2 as [x2 Hx2].
    rewrite (lookup_total_correct _ _ _ Hx1), (lookup_total_correct _ _ _ Hx2) in Heq.
    subst x2. apply index_by_hash_lookup in Hx1 as [_ <-].
    by apply index_by_hash_lookup in Hx2 as [_ <-]. }
  unfold diff_requests. simpl. split_and!; [apply Hnd | apply Hnd | | |].
  - intros x (k & [Hx _]%index_by_hash_lookup & _)%elem_of_listed_difference. done.
  - intros x (k & [Hx _]%index_by_hash_lookup & _)%elem_of_listed_difference. done.
  - intros x (k & Hk & Hnk)%elem_of_listed_difference
             (k' & Hk' & Hnk')%elem_of_listed_difference.
    apply index_by_hash_lookup in Hk as [_ <-].
    apply index_by_hash_lookup in Hk' as [Hxa _].
    apply Hnk, index_by_hash_dom, list_elem_of_fmap. by exists x.
Qed.

(** X17: The hashes of the added records are the hashes of [B] that are no
    hashes of [A], also when records collide. *)
Theorem diff_requests_added_hashes (a b : list jval) (k : string) :
  k ∈ rho <$> added (diff_requests a b) ↔ k ∈ rho <$> b ∧ k ∉ rho <$> a.
Proof.
  unfold diff_requests. simpl. rewrite list_elem_of_fmap. split.
  - intros (x & -> & (k' & [Hx <-]%index_by_hash_lookup & Hnk)%elem_of_listed_difference).
    split; [apply list_elem_of_fmap; by exists x | by rewrite <-index_by_hash_dom].
  - intros [Hkb Hka].
    apply index_by_hash_dom, elem_of_dom in Hkb as [x Hx].
    exists x. split; [by apply index_by_hash_lookup in Hx as [_ <-]|].
    apply elem_of_listed_difference. exists k. split; [done|].
    by rewrite index_by_hash_dom.
Qed.

(** ** Normalised requests *)

Lemma lowered_headers_lookup (hs : list (string * string)) (k : string) (v : jval) :
  foldl (λ m kv, <[lower kv.1 := JStr kv.2]> m) (∅ : gmap string jval) hs !! k = Some v →
  ∃ k0 v0, (k0, v0) ∈ hs ∧ k = lower k0 ∧ v = JStr v0.
Proof.
  induction hs as [|[k1 v1] hs IH] using rev_ind; [done|].
  rewrite foldl_app. simpl. destruct (decide (lower k1 = k)) as [<-|Hne].
  - rewrite lookup_insert_eq. intros [= <-]. exists k1, v1.
    split; [|done]. apply elem_of_app. right. by apply list_elem_of_singleton.
  - rewrite lookup_insert_ne by done. intros (k0 & v0 & Hin & -> & ->)%IH.
    exists k0, v0. split; [|done]. apply elem_of_app. by left.
Qed.

(** X19: The header names of a normalised request are in lower case, and each
    comes with the value of a header of the request. *)
Theorem normalize_req_headers_lowercase (req : request) :
  ∃ h, headers_of (normalize_req req) = Some h ∧
       ∀ k v, h !! k = Some v →
         lower k = k ∧ ∃ k0 v0, (k0, v0) ∈ req_headers req ∧ k = lower k0 ∧ v = JStr v0.
Proof.
  eexists. split.
  - unfold headers_of, normalize_req.
    rewrite lookup_insert_ne, lookup_insert_ne, lookup_insert_eq by done. done.
  - intros k v (k0 & v0 & Hin & -> & ->)%lowered_headers_lookup.
    split; [apply lower_idem|]. by exists k0, v0.
Qed.

Lemma lowered_headers_perm (hs hs' : list (string * string)) (m : gmap string jval) :
  hs ≡ₚ hs' →
  NoDup ((λ kv, lower kv.1) <$> hs) →
  foldl (λ m kv, <[lower kv.1 := JStr kv.2]> m) m hs
  = foldl (λ m kv, <[lower kv.1 := JStr kv.2]> m) m hs'.
Proof.
  intros Hperm. revert m.
  induction Hperm as [|x l l' _ IH|x y l|l l' l'' Hp1 IH1 Hp2 IH2]; intros m Hnd.
  - done.
  - simpl. apply IH. by apply NoDup_cons in Hnd as [_ ?].
  - simpl. f_equal. apply insert_insert_ne.
    rewrite !fmap_cons in Hnd. apply NoDup_cons in Hnd as [Hy _].
    intros Heq. apply Hy. rewrite Heq. apply elem_of_cons. by left.
  - rewrite IH1 by done. apply IH2. by rewrite <-Hp1.
Qed.

(** X20: The order in which the browser hands over the headers does not show
    in the record, as long as no two header names are equal up to case: the
    record, and with it the content hash, is the same. *)
Theorem normalize_req_header_order (url method : string)
    (hs hs' : list (string * string)) (post : option string) :
  hs ≡ₚ hs' →
  NoDup ((λ kv, lower kv.1) <$> hs) →
  normalize_req (Request url method hs post) = normalize_req (Request url method hs' post) ∧
  rho (normalize_req (Request url method hs post))
  = rho (normalize_req (Request url method hs' post)).
Proof.
  intros Hperm Hnd.
  assert (normalize_req (Request url method hs post)
          = normalize_req (Request url method hs' post)) as Heq.
  { unfold normalize_req. simpl. by rewrite (lowered_headers_perm hs hs' ∅ Hperm Hnd). }
  split; [done | by rewrite Heq].
Qed.

Lemma normalize_req_header_order_witness :
  normalize_req (Request "https://example.com/track" "GET"
                   [("Accept", "image/gif"); ("X-Trace", "1")] None)
  = normalize_req (Request "https://example.com/track" "GET"
                     [("X-Trace", "1"); ("Accept", "image/gif")] None) ∧
  rho (normalize_req (Request "https://example.com/track" "GET"
                        [("Accept", "image/gif"); ("X-Trace", "1")] None))
  = rho (normalize_req (Request "https://example.com/track" "GET"
                          [("X-Trace", "1"); ("Accept", "image/gif")] None)).
Proof.
  apply normalize_req_header_order.
  - apply Permutation_swap.
  - refine (bool_decide_unpack _ _). vm_compute. exact I.
Defined.

(** ** The content hash: shape of the key *)

Lemma sha256_round_length (st : list Z) (kw : Z * Z) :
  length st = 8 → length (sha256_round st kw) = 8.
Proof. by do 9 (destruct st as [|? st]; try done). Qed.

Lemma sha256_rounds_length (st : list Z) (kws : list (Z * Z)) :
  length st = 8 → length (foldl sha256_round st kws) = 8.
Proof.
  revert st. induction kws as [|kw kws IH]; intros st Hst; [done|].
  simpl. by apply IH, sha256_round_length.
Qed.

Lemma sha256_blocks_length (fuel : nat) (st bytes : list Z) :
  length st = 8 → length (sha256_blocks fuel st bytes) = 8.
Proof.
  revert st bytes. induction fuel as [|fuel IH]; intros st bytes Hst; [done|].
  destruct bytes as [|b bytes]; [done|].
  cbn [sha256_blocks]. apply IH. unfold sha256_block.
  rewrite length_zip_with, sha256_rounds_length by done. lia.
Qed.

Lemma sha256_length (msg : list Z) : length (sha256 msg) = 8.
Proof. unfold sha256. apply sha256_blocks_length. vm_compute. reflexivity. Qed.

Lemma be_bytes_length (n : nat) (x : Z) : length (be_bytes n x) = n.
Proof.
  revert x. induction n as [|n IH]; intros x; [done|].
  simpl. rewrite length_app, IH. simpl. lia.
Qed.

Lemma be_bytes_range (n : nat) (x : Z) :
  Forall (λ b, 0 ≤ b < 256)%Z (be_bytes n x).
Proof.
  revert x. induction n as [|n IH]; intros x; [constructor|].
  simpl. apply Forall_app. split; [apply IH|].
  constructor; [|constructor]. apply Z.mod_pos_bound. lia.
Qed.

Lemma digest_bytes (ws : list Z) :
  length (mjoin (be_bytes 4 <$> ws)) = 4 * length ws ∧
  Forall (λ b, 0 ≤ b < 256)%Z (mjoin (be_bytes 4 <$> ws)).
Proof.
  induction ws as [|w ws [IHl IHr]]; [by split|].
  rewrite fmap_cons. change (mjoin (?x :: ?l)) with (x ++ mjoin l).
  split.
  - rewrite length_app, be_bytes_length, IHl. simpl. lia.
  - apply Forall_app. split; [apply be_bytes_range | done].
Qed.

Lemma hex_digit_hex (n : N) :
  (n < 16)%N → char_in (hex_digit n) "0123456789abcdef" = true.
Proof.
  intros Hn. rewrite <-(N2Nat.id n).
  assert (N.to_nat n < 16) as Hm by lia. clear Hn.
  generalize dependent (N.to_nat n). intros m Hm.
  do 16 (destruct m as [|m]; [vm_compute; reflexivity|]). lia.
Qed.

Lemma hex_of_bytes_shape (bytes : list Z) :
  Forall (λ b, 0 ≤ b < 256)%Z bytes →
  String.length (hex_of_bytes bytes) = 2 * length bytes ∧
  all_chars (λ c, char_in c "0123456789abcdef") (hex_of_bytes bytes) = true.
Proof.
  induction 1 as [|b bytes Hb _ [IHl IHc]]; [by split|].
  cbn [hex_of_bytes String.length all_chars length]. split; [lia|].
  rewrite IHc, !hex_digit_hex; [done| |].
  - assert (0 ≤ b mod 16 < 16)%Z by (apply Z.mod_pos_bound; lia). lia.
  - assert (0 ≤ b / 16 < 16)%Z by (split; [apply Z.div_pos|apply Z.div_lt_upper_bound]; lia).
    lia.
Qed.

Lemma str_take_shape (P : ascii → bool) (n : nat) (s : string) :
  String.length (str_take n s) = min n (String.length s) ∧
  (all_chars P s = true → all_chars P (str_take n s) = true).
Proof.
  revert s. induction n as [|n IH]; intros s; [by split|].
  destruct s as [|c s]; [by split|].
  cbn [str_take String.length all_chars]. destruct (IH s) as [-> IHc].
  split; [simpl; lia|]. intros [-> Hs]%andb_true_iff. by rewrite IHc.
Qed.

(** X21: The key under which a record is indexed is always made of twelve
    hexadecimal digits in lower case: there are 16^12 keys, however long or
    different the records are. *)
Theorem sha_key_shape (s : string) :
  String.length (sha s) = 12 ∧
  all_chars (λ c, char_in c "0123456789abcdef") (sha s) = true.
Proof.
  unfold sha, hexdigest.
  destruct (digest_bytes (sha256 (encode_utf8 s))) as [Hlen Hrange].
  destruct (hex_of_bytes_shape _ Hrange) as [Hhl Hhc].
  destruct (str_take_shape (λ c, char_in c "0123456789abcdef") 12
              (hex_of_bytes (mjoin (be_bytes 4 <$> sha256 (encode_utf8 s))))) as [-> Hc].
  split; [|by apply Hc].
  rewrite Hhl, Hlen, sha256_length. reflexivity.
Qed.

(** ** The session runner, continued *)

Lemma bind_call_raises {A} (o : ext_call → option exn) (c : ext_call)
    (k : () → M A) (tr : list event) (x : exn) :
  o c = Some x → (call o c ≫= k) tr = (tr ++ [Called c], Raised x).
Proof. unfold mbind, M_bind, call. by intros ->. Qed.

Lemma navigation_block_exact (e : gmap string string) (o : ext_call → option exn)
    (tr : list event) :
  (try_except
     (_ ← emit (Logged LogNavigating);
      _ ← call o Goto;
      if env_truthy e "WAIT_FOR_SELECTOR" then call o WaitForSelector else mret ())
     (λ x, emit (Logged LogNavigationError)) tr).1 = tr ++ navigation_trace e o.
Proof.
  unfold navigation_trace, try_except, mbind, M_bind, emit, call, mret, M_ret.
  destruct (o Goto) as [[]|]; simpl; rewrite <-?app_assoc; try done.
  destruct (env_truthy e "WAIT_FOR_SELECTOR"); simpl; rewrite <-?app_assoc; [|done].
  destruct (o WaitForSelector) as [[]|]; simpl; by rewrite <-?app_assoc.
Qed.

(** The whole trace of a run whose setup and finalize calls return. *)
Lemma run_account_full_trace (e : gmap string string) (o : ext_call → option exn)
    (captured : list jval) :
  session_ok o →
  run_account e o captured []
  = ((Called <$> setup_calls) ++ navigation_trace e o ++ finalize_trace e,
     Returned captured).
Proof.
  intros Hok. unfold session_ok in Hok. simpl in Hok.
  repeat (apply Forall_cons in Hok as [? Hok]).
  unfold run_account, finally_return.
  rewrite !bind_call_returns by done.
  rewrite navigation_block_exact. unfold finalize_trace.
  destruct (on e "EXPORT_STORAGE").
  - unfold mbind at 1, M_bind at 1.
    rewrite bind_call_returns by done. unfold emit at 1.
    rewrite !bind_call_returns, bind_emit by done.
    unfold mret, M_ret. simpl. by rewrite <-!app_assoc.
  - unfold mbind at 1, M_bind at 1. unfold mret at 1, M_ret at 1.
    rewrite !bind_call_returns, bind_emit by done.
    unfold mret, M_ret. simpl. by rewrite <-!app_assoc.
Qed.

Ltac trace_not_in :=
  match goal with
  | |- ?x ∈ ?l → False =>
      change (¬ x ∈ l); refine (bool_decide_unpack _ _); vm_compute; exact I
  | |- ¬ ?x ∈ ?l => refine (bool_decide_unpack _ _); vm_compute; exact I
  end.

Ltac trace_in := refine (bool_decide_unpack _ _); vm_compute; exact I.







(** ** The orchestrator, continued *)

Lemma collect_pending (n : nat) : collect (replicate (S n) Pending) = None.
Proof. done. Qed.

(** X25: With a concurrency of zero no task ever gets through the semaphore:
    as soon as there is one account, no step of the event loop is possible
    and [gather] never comes back.  A negative concurrency makes the
    creation of the semaphore raise. *)
Theorem zero_concurrency_blocks (e : gmap string string) (sessions : list session) :
  sessions ≠ [] →
  (∃ s0, run_multiple_accounts sessions 0 = Some s0 ∧
         gathered s0 = None ∧ ∀ a, step e sessions a s0 = None) ∧
  (∀ c, (c < 0)%Z → run_multiple_accounts sessions c = None).
Proof.
  intros Hne. split.
  - eexists. split; [done|]. split; [done|].
    intros [i|i|i|]; simpl.
    + destruct (replicate (length sessions) Pending !! i) as [[| |]|]; try done;
        by destruct (sessions !! i).
    + destruct (replicate (length sessions) Pending !! i) as [p|] eqn:Hp; [|done].
      by apply lookup_replicate in Hp as [-> _].
    + destruct (replicate (length sessions) Pending !! i) as [p|] eqn:Hp; [|done].
      by apply lookup_replicate in Hp as [-> _].
    + destruct sessions as [|ss sessions]; [done|]. done.
  - intros c Hc. unfold run_multiple_accounts.
    by rewrite (proj2 (Z.ltb_lt c 0) Hc).
Qed.

Lemma zero_concurrency_blocks_witness :
  (∃ s0, run_multiple_accounts sample_sessions 0 = Some s0 ∧
         gathered s0 = None ∧ ∀ a, step env_wait_export sample_sessions a s0 = None) ∧
  (∀ c, (c < 0)%Z → run_multiple_accounts sample_sessions c = None).
Proof. apply (zero_concurrency_blocks env_wait_export sample_sessions). discriminate. Defined.

(** X26: As soon as the [run_account] of one task has ended with an exception,
    [gather] has raised: the call gives an exception, not a list of
    results, whatever the other sessions did or will do. *)
Theorem gather_raises_with_a_session (e : gmap string string)
    (sessions : list session) (c : Z) (s0 : orch) (sched : list action) (s : orch)
    (i : nat) (x : exn) :
  run_multiple_accounts sessions c = Some s0 →
  exec e sessions sched s0 = Some s →
  phases s !! i = Some (Finished (Raised x)) →
  ∃ y, gathered s = Some (Raised y).
Proof.
  intros Hs0 Hexec Hi.
  pose proof (init_inv e sessions (Z.to_nat c) c s0 Hs0 eq_refl) as Hinv0.
  destruct (exec_inv _ _ _ _ _ _ Hinv0 Hexec) as (_ & _ & _ & Hnone & _ & Hret).
  destruct (gathered s) as [[rs|y]|] eqn:Hg.
  - destruct (proj2 (collect_lookup _ _ (Hret rs eq_refl)) i _ Hi) as (r & Hr & _).
    discriminate Hr.
  - by exists y.
  - by destruct (Hnone eq_refl i x).
Qed.

Lemma gather_raises_with_a_session_witness :
  ∃ y, gathered (Orch 1 [Running 0; Finished (Raised (ExException "No space left on device"))]
                   (Some (Raised (ExException "No space left on device"))))
       = Some (Raised y).
Proof.
  apply (gather_raises_with_a_session ∅
           [Session oracle_clean [] 0; Session oracle_disk_full [] 0] 2
           (Orch 2 [Pending; Pending] None) [Acquire 0; Acquire 1; Complete 1] _
           1 (ExException "No space left on device")).
  - reflexivity.
  - vm_compute. reflexivity.
  - reflexivity.
Defined.

(** X27: Every task gives its place back: in a state where all tasks have
    ended, with a result or with an exception, the counter of the semaphore
    is back at the concurrency. *)
Theorem semaphore_fully_released (e : gmap string string)
    (sessions : list session) (c : Z) (s0 : orch) (sched : list action) (s : orch) :
  run_multiple_accounts sessions c = Some s0 →
  exec e sessions sched s0 = Some s →
  Forall (λ p, is_finished p = true) (phases s) →
  sem_value s = Z.to_nat c.
Proof.
  intros Hs0 Hexec Hfin.
  pose proof (init_inv e sessions (Z.to_nat c) c s0 Hs0 eq_refl) as Hinv0.
  destruct (exec_inv _ _ _ _ _ _ Hinv0 Hexec) as (_ & Hsem & _).
  unfold active in Hsem. rewrite running_count_finished in Hsem; [lia|].
  eapply Forall_impl; [exact Hfin|]. by intros [].
Qed.

Lemma semaphore_fully_released_witness :
  sem_value (Orch 2 [Finished (Returned []);
                     Finished (Raised (ExException "No space left on device"))]
               (Some (Raised (ExException "No space left on device"))))
  = Z.to_nat 2.
Proof.
  apply (semaphore_fully_released ∅
           [Session oracle_clean [] 0; Session oracle_disk_full [] 0] 2
           (Orch 2 [Pending; Pending] None)
           [Acquire 0; Acquire 1; Complete 1; Complete 0]).
  - reflexivity.
  - vm_compute. reflexivity.
  - repeat constructor.
Defined.
